(** * The response cache of [routes.py]

    A shallow embedding of the caching decorator [with_cache] and of the
    [clear_cache] endpoint, with the Python string forms that the cache key
    is built from. *)

From Stdlib Require Import ZArith NArith Ascii String.
From Stdlib Require Import DecimalString DecimalZ Lia.
From stdpp Require Import gmap strings list fin_maps.

Local Open Scope Z_scope.

(** ** Python values passed to the wrapped functions

    The routes of this module take [int] and [str] path parameters.  An [int]
    is unbounded ([Z]); a [str] is a sequence of code points, here the code
    points below 256, one [ascii] each. *)

Inductive PyVal : Type :=
  | PInt (z : Z)
  | PStr (s : string).

(** ** [repr] and [str] of the values, tuples and dicts in the key *)

Module PyRepr.

Definition squote : ascii := "039"%char.
Definition dquote : ascii := "034"%char.
Definition backslash : ascii := "092"%char.

(** [Py_hexdigits], indexed by a nibble. *)
Definition Py_hexdigits : string := "0123456789abcdef".

Definition hexdigits (n : N) : ascii :=
  default "f"%char (String.get (N.to_nat n) Py_hexdigits).

(** [\xhh]: the high and the low nibble of the code point. *)
Definition hex_escape (c : ascii) : string :=
  let n := N_of_ascii c in
  String backslash
    (String "x" (String (hexdigits (N.shiftr n 4))
                        (String (hexdigits (N.land n 15)) EmptyString))).

(** [Py_UNICODE_ISPRINTABLE] on the code points 128..255: the C1 controls,
    the no-break space and the soft hyphen are not printable. *)
Definition Py_UNICODE_ISPRINTABLE (n : N) : bool :=
  negb ((n <=? 160) || (n =? 173))%N.

(** One character of the body of [repr(s)], for the chosen [quote]. *)
Definition repr_char (quote c : ascii) : string :=
  let n := N_of_ascii c in
  if (c =? quote)%char || (c =? backslash)%char then
    String backslash (String c EmptyString)
  else if (c =? "009")%char then String backslash "t"
  else if (c =? "010")%char then String backslash "n"
  else if (c =? "013")%char then String backslash "r"
  else if ((n <? 32) || (n =? 127))%N then hex_escape c
  else if (n <? 127)%N then String c EmptyString
  else if negb (Py_UNICODE_ISPRINTABLE n) then hex_escape c
  else String c EmptyString.

Fixpoint contains (c : ascii) (s : string) : bool :=
  match s with
  | EmptyString => false
  | String d s' => (d =? c)%char || contains c s'
  end.

(** Single quotes, unless the string has a single quote and no double
    quote. *)
Definition repr_quote (s : string) : ascii :=
  if contains squote s && negb (contains dquote s) then dquote else squote.

Fixpoint repr_body (quote : ascii) (s : string) : string :=
  match s with
  | EmptyString => EmptyString
  | String c s' => repr_char quote c +:+ repr_body quote s'
  end.

Definition repr_str (s : string) : string :=
  let quote := repr_quote s in
  String quote (repr_body quote s +:+ String quote EmptyString).

(** Decimal digits, with a leading minus sign for a negative number. *)
Definition repr_int (z : Z) : string :=
  NilEmpty.string_of_int (Z.to_int z).

Definition repr (v : PyVal) : string :=
  match v with
  | PInt z => repr_int z
  | PStr s => repr_str s
  end.

Fixpoint join (sep : string) (l : list string) : string :=
  match l with
  | [] => EmptyString
  | [x] => x
  | x :: l' => x +:+ sep +:+ join sep l'
  end.

(** [str(args)] of the tuple of positional arguments: [()], [(a,)],
    [(a, b)]. *)
Definition str_tuple (args : list PyVal) : string :=
  match args with
  | [a] => "(" +:+ repr a +:+ ",)"
  | _ => "(" +:+ join ", " (map repr args) +:+ ")"
  end.

Definition repr_item (kv : string * PyVal) : string :=
  repr_str kv.1 +:+ ": " +:+ repr kv.2.

(** [str(kwargs)] of the dict of named arguments, in the order of the
    call. *)
Definition str_dict (kwargs : list (string * PyVal)) : string :=
  "{" +:+ join ", " (map repr_item kwargs) +:+ "}".

End PyRepr.

Import PyRepr.

(** [f"{func.__name__}:{str(args)}:{str(kwargs)}"] *)
Definition make_key (name : string) (args : list PyVal)
    (kwargs : list (string * PyVal)) : string :=
  name +:+ ":" +:+ str_tuple args +:+ ":" +:+ str_dict kwargs.

(** ** Time

    A [datetime] is a count of microseconds on the local clock, a
    [timedelta] a difference of two; both are exact integers. *)

Definition timedelta_minutes (n : Z) : Z := n * 60000000.
Definition timedelta_hours (n : Z) : Z := n * 3600000000.

Definition CACHE_EXPIRY : Z := timedelta_minutes 15.

(** ** The module state and the wrapper *)

Definition Args : Type := list PyVal.
Definition Kwargs : Type := list (string * PyVal).

(** One invocation of a wrapped function: its name and its arguments. *)
Definition Call : Type := string * Args * Kwargs.

Section Routes.

(** [V]: the response documents; [Exc]: the exceptions a wrapped function
    raises; [X]: the world outside the module (the clock, the data
    provider). *)
Context {V Exc X : Type}.

(** [datetime.now()] reads the clock of the outside world. *)
Variable datetime_now : X -> Z * X.

(** A decorated coroutine function: [func.__name__], and what awaiting
    a call of [func] on the positional and the named arguments does to
    the outside world: it returns a response or raises.  The functions of
    this module only forward to the data provider: they do not touch
    [cache], and one request is served at a time. *)
Record Func : Type := {
  __name__ : string;
  run : Args -> Kwargs -> X -> (Exc + V) * X
}.

(** [cache] is the module-level dict.  [awaited] is a ghost record of the
    invocations of wrapped functions, in order; the code keeps no such
    list. *)
Record World : Type := {
  cache : gmap string (Z * V);
  outside : X;
  awaited : list Call
}.

(** What happens between two requests: the outside world moves on, the
    module state stays. *)
Definition later (w : World) (x : X) : World :=
  {| cache := cache w; outside := x; awaited := awaited w |}.

(** Computations of the module: they read and write the world, and
    return or raise. *)
Definition M (A : Type) : Type := World -> (Exc + A) * World.

Definition ret {A : Type} (a : A) : M A := fun w => (inr a, w).

Definition bind {A B : Type} (m : M A) (k : A -> M B) : M B :=
  fun w =>
    match m w with
    | (inl e, w') => (inl e, w')
    | (inr a, w') => k a w'
    end.

Notation "'let*' x ':=' m 'in' k" := (bind m (fun x => k))
  (at level 10, x name, m at level 100, k at level 200).

Definition now : M Z :=
  fun w =>
    let (t, x) := datetime_now (outside w) in
    (inr t, later w x).

Definition await (func : Func) (args : Args) (kwargs : Kwargs) : M V :=
  fun w =>
    let (r, x) := run func args kwargs (outside w) in
    (r, {| cache := cache w; outside := x;
           awaited := awaited w ++ [(__name__ func, args, kwargs)] |}).

(** [cache[key]] when [key in cache]. *)
Definition cache_get (key : string) : M (option (Z * V)) :=
  fun w => (inr (cache w !! key), w).

(** [cache[key] = entry] *)
Definition cache_put (key : string) (entry : Z * V) : M unit :=
  fun w =>
    (inr tt, {| cache := <[key := entry]> (cache w);
                outside := outside w; awaited := awaited w |}).

(** [cache = {}] *)
Definition cache_clear : M unit :=
  fun w => (inr tt, {| cache := ∅; outside := outside w;
                       awaited := awaited w |}).

Definition wrapper (func : Func) (expiry : Z) (args : Args)
    (kwargs : Kwargs) : M V :=
  let key := make_key (__name__ func) args kwargs in
  let* found := cache_get key in
  let* valid :=
    match found with
    | Some (timestamp, value) =>
        let* t := now in
        ret (if t - timestamp <? expiry then Some value else None)
    | None => ret None
    end in
  match valid with
  | Some value => ret value
  | None =>
      let* result := await func args kwargs in
      let* t := now in
      let* _ := cache_put key (t, result) in
      ret result
  end.

Definition with_cache (expiry : option Z) (func : Func)
    : Args -> Kwargs -> M V :=
  wrapper func (default CACHE_EXPIRY expiry).

(** The last four lines of [wrapper], taken when there is no valid entry:
    [wrapper] itself has them inline. *)
Definition refresh (func : Func) (args : Args) (kwargs : Kwargs) : M V :=
  let key := make_key (__name__ func) args kwargs in
  let* result := await func args kwargs in
  let* t := now in
  let* _ := cache_put key (t, result) in
  ret result.

(** A run of requests for one wrapped function with the same arguments:
    before each request the outside world has become the next [x]. *)
Fixpoint serve (func : Func) (expiry : Z) (args : Args) (kwargs : Kwargs)
    (xs : list X) (w : World) : list (Exc + V) * World :=
  match xs with
  | [] => ([], w)
  | x :: xs' =>
      let (r, w1) := wrapper func expiry args kwargs (later w x) in
      let (rs, w2) := serve func expiry args kwargs xs' w1 in
      (r :: rs, w2)
  end.

(** The body of the [DELETE /cache] route and its JSON response. *)
Definition clear_cache : M (list (string * string)) :=
  let* _ := cache_clear in
  ret [("message", "Cache cleared successfully")].

End Routes.

Arguments Func : clear implicits.
Arguments World : clear implicits.

(** ** How a call binds its arguments

    Python binds the arguments of a call to the parameters of [func]:
    positional arguments fill the parameters in order, named arguments fill
    the rest by name; an unknown name, a parameter given twice or a
    parameter left out is a [TypeError] ([None]).  The result lists the
    parameters in the order of the signature. *)

Fixpoint lookup_kwarg (p : string) (kwargs : Kwargs) : option PyVal :=
  match kwargs with
  | [] => None
  | (k, v) :: kwargs' =>
      if String.eqb k p then Some v else lookup_kwarg p kwargs'
  end.

Fixpoint remove_kwarg (p : string) (kwargs : Kwargs) : Kwargs :=
  match kwargs with
  | [] => []
  | (k, v) :: kwargs' =>
      if String.eqb k p then remove_kwarg p kwargs'
      else (k, v) :: remove_kwarg p kwargs'
  end.

Fixpoint bind_arguments (params : list string) (args : Args) (kwargs : Kwargs)
    : option (list (string * PyVal)) :=
  match params with
  | [] =>
      match args, kwargs with
      | [], [] => Some []
      | _, _ => None
      end
  | p :: params' =>
      match args with
      | a :: args' =>
          match lookup_kwarg p kwargs with
          | Some _ => None
          | None => cons (p, a) <$> bind_arguments params' args' kwargs
          end
      | [] =>
          match lookup_kwarg p kwargs with
          | Some v =>
              cons (p, v) <$> bind_arguments params' [] (remove_kwarg p kwargs)
          | None => None
          end
      end
  end.

(** ** Reading a key back

    The characters that can follow the [repr] of an argument inside a key,
    and a reader for one escaped character; both serve the proofs that
    different arguments give different keys. *)

Definition delimited (r : string) : bool :=
  match r with
  | EmptyString => false
  | String c _ =>
      (c =? ",")%char || (c =? ")")%char || (c =? "}")%char
      || (c =? ":")%char
  end.

Fixpoint position (c : ascii) (s : string) : option N :=
  match s with
  | EmptyString => None
  | String d s' => if (d =? c)%char then Some 0%N else N.succ <$> position c s'
  end.

Definition unhex (c : ascii) : option N := position c Py_hexdigits.

(** The character that the head of [s] stands for inside a [repr] with the
    given quote, and the rest of [s]; [None] at the closing quote. *)
Definition read_char (quote : ascii) (s : string) : option (ascii * string) :=
  match s with
  | EmptyString => None
  | String c s1 =>
      if (c =? backslash)%char then
        match s1 with
        | EmptyString => None
        | String d s2 =>
            if (d =? "x")%char then
              match s2 with
              | String h (String l s3) =>
                  match unhex h, unhex l with
                  | Some a, Some b => Some (ascii_of_N (16 * a + b), s3)
                  | _, _ => None
                  end
              | _ => None
              end
            else if (d =? "t")%char then Some ("009"%char, s2)
            else if (d =? "n")%char then Some ("010"%char, s2)
            else if (d =? "r")%char then Some ("013"%char, s2)
            else Some (d, s2)
        end
      else if (c =? quote)%char then None
      else Some (c, s1)
  end.

(** What follows the first of the items [l] that are joined by [", "] and
    closed by a bracket. *)
Definition items_tail {A : Type} (enc : A -> string) (close : ascii)
    (l : list A) (r : string) : string :=
  match l with
  | [] => String close r
  | _ => ", " +:+ join ", " (map enc l) +:+ String close r
  end.

(** A function name as a [def] statement gives it has no colon. *)
Definition plain_name (name : string) : bool := negb (contains ":" name).

(** ** A concrete world

    The clock counts microseconds; the data provider answers each fetch
    with the next response of a script, after two seconds, and is
    unavailable once the script is used up. *)

Module Scenario.

Definition Outside : Type := Z * list (string + string).

Definition clock (x : Outside) : Z * Outside := (x.1, x).

Definition provider (args : Args) (kwargs : Kwargs) (x : Outside)
    : (string + string) * Outside :=
  match x.2 with
  | [] => (inl "503 Service Unavailable", (x.1 + 2000000, []))
  | r :: script => (r, (x.1 + 2000000, script))
  end.

Definition get_team_profile : Func string string Outside :=
  {| __name__ := "get_team_profile"; run := provider |}.

(** A second function that carries the name of the first, as a function
    of another module decorated with the same [with_cache] would. *)
Definition get_team_profile_v2 : Func string string Outside :=
  {| __name__ := "get_team_profile";
     run := fun _ _ x => (inr "{'name': 'Team A', 'version': 2}", x) |}.

Definition get_player_profile : Func string string Outside :=
  {| __name__ := "get_player_profile"; run := provider |}.

Definition T1 : Args := [PStr "T1"].

Definition team_a : string := "{'name': 'Team A'}".
Definition team_b : string := "{'name': 'Team B'}".

Definition start (t : Z) (script : list (string + string))
    : World string Outside :=
  {| cache := ∅; outside := (t, script); awaited := [] |}.

(** A world whose store holds one response for [get_team_profile("T1")],
    written at [t0]. *)
Definition holding (t0 : Z) (v : string) (t : Z)
    (script : list (string + string)) : World string Outside :=
  {| cache := {[ make_key "get_team_profile" T1 [] := (t0, v) ]};
     outside := (t, script); awaited := [] |}.

Definition call (func : Func string string Outside) (expiry : Z)
    (args : Args) (kwargs : Kwargs) :=
  wrapper clock func expiry args kwargs.

Definition h12 : Z := timedelta_hours 12.

End Scenario.

(** ** Requests one after another

    The module serves calls of decorated functions and [DELETE /cache]
    requests in some order; before each request the outside world has
    become some [x]. *)

Section Traffic.

Context {V Exc X : Type}.
Variable datetime_now : X -> Z * X.

Inductive Request : Type :=
  | CallReq (func : Func V Exc X) (expiry : Z) (args : Args) (kwargs : Kwargs)
  | ClearReq.

Inductive Reply : Type :=
  | CallReply (r : Exc + V)
  | ClearReply (r : Exc + list (string * string)).

(** The key a request works on and the invocation it may cause. *)
Definition request_key (rq : Request) : option string :=
  match rq with
  | CallReq func _ args kwargs => Some (make_key (__name__ func) args kwargs)
  | ClearReq => None
  end.

Definition request_call (rq : Request) : list Call :=
  match rq with
  | CallReq func _ args kwargs => [(__name__ func, args, kwargs)]
  | ClearReq => []
  end.

Definition step (rq : X * Request) (w : World V X) : Reply * World V X :=
  match rq.2 with
  | CallReq func expiry args kwargs =>
      let (r, w') := wrapper datetime_now func expiry args kwargs (later w rq.1) in
      (CallReply r, w')
  | ClearReq =>
      let (r, w') := clear_cache (later w rq.1) in
      (ClearReply r, w')
  end.

Fixpoint handle (rqs : list (X * Request)) (w : World V X)
    : list Reply * World V X :=
  match rqs with
  | [] => ([], w)
  | rq :: rqs' =>
      let (r, w1) := step rq w in
      let (rs, w2) := handle rqs' w1 in
      (r :: rs, w2)
  end.

(** Whether the entry under the key of a call, if any, is still valid when
    the call consults the store. *)
Definition valid_entry (func : Func V Exc X) (expiry : Z) (args : Args)
    (kwargs : Kwargs) (w : World V X) : bool :=
  match cache w !! make_key (__name__ func) args kwargs with
  | Some (timestamp, _) => (datetime_now (outside w)).1 - timestamp <? expiry
  | None => false
  end.

Definition is_call (rq : Request) : bool :=
  match rq with
  | CallReq _ _ _ _ => true
  | ClearReq => false
  end.

(** A request that neither clears the store nor works on [key]. *)
Definition avoids (key : string) (rq : Request) : Prop :=
  match rq with
  | CallReq func _ args kwargs => make_key (__name__ func) args kwargs ≠ key
  | ClearReq => False
  end.

(** [P key v] holds of whatever the function of a call request returns
    for the arguments of the request. *)
Definition results_satisfy (P : string -> V -> Prop) (rq : Request) : Prop :=
  match rq with
  | CallReq func _ args kwargs =>
      forall x v x', run func args kwargs x = (inr v, x') ->
                     P (make_key (__name__ func) args kwargs) v
  | ClearReq => True
  end.

(** [P key v] holds of the response [v] a call request got back. *)
Definition reply_satisfies (P : string -> V -> Prop) (rq : Request)
    (rp : Reply) : Prop :=
  match rq, rp with
  | CallReq func _ args kwargs, CallReply (inr v) =>
      P (make_key (__name__ func) args kwargs) v
  | _, _ => True
  end.

End Traffic.

Arguments Request : clear implicits.
Arguments Reply : clear implicits.

(** ** The routes

    Every parameter of a route has a [Path(...)] default, so Python binds a
    call as follows: positional arguments fill the parameters in order,
    named arguments fill parameters by name, and a parameter left out gets
    its default; more positional arguments than parameters, an unknown
    name or a parameter given twice is a [TypeError] ([None]). *)

Inductive Bound : Type :=
  | Given (v : PyVal)
  | PathDefault.

Fixpoint fill_positional (params : list string) (args : Args)
    : option (list (string * option PyVal)) :=
  match params, args with
  | _, [] => Some (map (fun p => (p, None)) params)
  | [], _ :: _ => None
  | p :: params', a :: args' =>
      cons (p, Some a) <$> fill_positional params' args'
  end.

Fixpoint fill_keyword (k : string) (v : PyVal)
    (slots : list (string * option PyVal))
    : option (list (string * option PyVal)) :=
  match slots with
  | [] => None
  | (p, s) :: slots' =>
      if String.eqb p k then
        match s with
        | None => Some ((p, Some v) :: slots')
        | Some _ => None
        end
      else cons (p, s) <$> fill_keyword k v slots'
  end.

Fixpoint fill_keywords (kwargs : Kwargs)
    (slots : list (string * option PyVal))
    : option (list (string * option PyVal)) :=
  match kwargs with
  | [] => Some slots
  | (k, v) :: kwargs' => fill_keyword k v slots ≫= fill_keywords kwargs'
  end.

(** The slot of parameter [k]: the first one of that name. *)
Fixpoint slot_of (k : string) (slots : list (string * option PyVal))
    : option (option PyVal) :=
  match slots with
  | [] => None
  | (p, s) :: slots' => if String.eqb p k then Some s else slot_of k slots'
  end.

Definition bound_of (slot : string * option PyVal) : Bound :=
  match slot.2 with
  | Some v => Given v
  | None => PathDefault
  end.

Definition bind_call (params : list string) (args : Args) (kwargs : Kwargs)
    : option (list Bound) :=
  map bound_of <$> (fill_positional params args ≫= fill_keywords kwargs).

Section NflRoutes.

Context {V Exc X : Type}.
Variable datetime_now : X -> Z * X.

(** The exception of a call that does not bind. *)
Variable TypeError : Exc.

(** [nfl_service] of [App.services.nfl_service]: what awaiting each of its
    methods does to the outside world. *)
Record NflService : Type := {
  service_get_teams : X -> (Exc + V) * X;
  service_get_schedule : Bound -> Bound -> X -> (Exc + V) * X;
  service_get_team_profile : Bound -> X -> (Exc + V) * X;
  service_get_player_profile : Bound -> X -> (Exc + V) * X;
  service_get_game_boxscore : Bound -> X -> (Exc + V) * X
}.

Variable nfl_service : NflService.

(** The route functions as written, before decoration. *)
Definition get_teams_func : Func V Exc X :=
  {| __name__ := "get_teams";
     run := fun args kwargs x =>
       match bind_call [] args kwargs with
       | Some [] => service_get_teams nfl_service x
       | _ => (inl TypeError, x)
       end |}.

Definition get_schedule_func : Func V Exc X :=
  {| __name__ := "get_schedule";
     run := fun args kwargs x =>
       match bind_call ["year"; "season_type"] args kwargs with
       | Some [year; season_type] =>
           service_get_schedule nfl_service year season_type x
       | _ => (inl TypeError, x)
       end |}.

Definition get_team_profile_func : Func V Exc X :=
  {| __name__ := "get_team_profile";
     run := fun args kwargs x =>
       match bind_call ["team_id"] args kwargs with
       | Some [team_id] => service_get_team_profile nfl_service team_id x
       | _ => (inl TypeError, x)
       end |}.

Definition get_player_profile_func : Func V Exc X :=
  {| __name__ := "get_player_profile";
     run := fun args kwargs x =>
       match bind_call ["player_id"] args kwargs with
       | Some [player_id] => service_get_player_profile nfl_service player_id x
       | _ => (inl TypeError, x)
       end |}.

Definition get_game_boxscore_func : Func V Exc X :=
  {| __name__ := "get_game_boxscore";
     run := fun args kwargs x =>
       match bind_call ["game_id"] args kwargs with
       | Some [game_id] => service_get_game_boxscore nfl_service game_id x
       | _ => (inl TypeError, x)
       end |}.

(** The names the module binds: the decorated functions. *)
Definition get_teams : Args -> Kwargs -> M V :=
  with_cache datetime_now (Some (timedelta_hours 24)) get_teams_func.

Definition get_schedule : Args -> Kwargs -> M V :=
  with_cache datetime_now (Some (timedelta_hours 6)) get_schedule_func.

Definition get_team_profile : Args -> Kwargs -> M V :=
  with_cache datetime_now (Some (timedelta_hours 12)) get_team_profile_func.

Definition get_player_profile : Args -> Kwargs -> M V :=
  with_cache datetime_now (Some (timedelta_hours 6)) get_player_profile_func.

Definition get_game_boxscore : Args -> Kwargs -> M V :=
  with_cache datetime_now (Some (timedelta_minutes 30)) get_game_boxscore_func.

(** The decorated functions of the module with their parameters and
    windows. *)
Definition route_table : list (Func V Exc X * list string * Z) :=
  [(get_teams_func, [], timedelta_hours 24);
   (get_schedule_func, ["year"; "season_type"], timedelta_hours 6);
   (get_team_profile_func, ["team_id"], timedelta_hours 12);
   (get_player_profile_func, ["player_id"], timedelta_hours 6);
   (get_game_boxscore_func, ["game_id"], timedelta_minutes 30)].

(** The calls of a function with the one parameter [p], case by case:
    nothing given, the parameter given by position, the parameter given by
    name, and everything else. *)
Definition one_parameter_call (p : string)
    (fetch : Bound -> X -> (Exc + V) * X) (args : Args) (kwargs : Kwargs)
    (x : X) : (Exc + V) * X :=
  match args, kwargs with
  | [], [] => fetch PathDefault x
  | [a], [] => fetch (Given a) x
  | [], [(k, v)] =>
      if String.eqb p k then fetch (Given v) x else (inl TypeError, x)
  | _, _ => (inl TypeError, x)
  end.

End NflRoutes.

Arguments NflService : clear implicits.

(** A provider for the concrete world: every method answers from the
    script, whatever it is asked for. *)
Module RouteScenario.

Import Scenario.

Definition scripted (x : Outside) : (string + string) * Outside :=
  provider [] [] x.

Definition nfl : NflService string string Outside :=
  {| service_get_teams := scripted;
     service_get_schedule := fun _ _ => scripted;
     service_get_team_profile := fun _ => scripted;
     service_get_player_profile := fun _ => scripted;
     service_get_game_boxscore := fun _ => scripted |}.

Definition TypeError : string := "TypeError".

Definition REG_2023 : Kwargs :=
  [("year", PInt 2023); ("season_type", PStr "REG")].

Definition schedule : string := "{'weeks': 18}".

End RouteScenario.

(** * Facts *)

(** ** Keys of the routes *)

Example key_positional :
  make_key "get_team_profile" [PStr "T1"] [] = "get_team_profile:('T1',):{}".
Proof. reflexivity. Qed.

Example key_named :
  make_key "get_schedule" [] [("year", PInt 2023); ("season_type", PStr "REG")]
  = "get_schedule:():{'year': 2023, 'season_type': 'REG'}".
Proof. reflexivity. Qed.

Example repr_examples :
  repr_str (String "a" (String squote "b"))
  = String dquote (String "a" (String squote (String "b" (String dquote ""))))
  /\ repr_str (String "009" (String "233" (String "173" (String "000" ""))))
     = String squote
         (String backslash
            (String "t"
               (String "233"
                  (String backslash
                     (String "x"
                        (String "a" (String "d" (String backslash "x00'"))))))))
  /\ repr_int (-5) = "-5" /\ repr_int 0 = "0"
  /\ str_tuple [PInt 1; PStr "a"] = "(1, 'a')" /\ str_tuple [] = "()".
Proof. repeat split; reflexivity. Qed.


(** The window of a function decorated without an argument. *)
Example default_window {V Exc X : Type} (datetime_now : X -> Z * X)
    (func : Func V Exc X) :
  with_cache datetime_now None func = wrapper datetime_now func 900000000.
Proof. reflexivity. Qed.

(** ** Reading a key back: [make_key] is injective *)

Section KeyFacts.

Lemma sapp_String c s r : String c s +:+ r = String c (s +:+ r).
Proof. reflexivity. Qed.

Lemma sapp_nil_l s : "" +:+ s = s.
Proof. reflexivity. Qed.

Lemma sapp_assoc s1 s2 s3 : (s1 +:+ s2) +:+ s3 = s1 +:+ (s2 +:+ s3).
Proof.
  induction s1 as [|c s1 IH]; [reflexivity|].
  rewrite !sapp_String. by f_equal.
Qed.

Ltac app_norm H :=
  cbv zeta in H;
  repeat (rewrite sapp_assoc in H || rewrite sapp_String in H
          || rewrite sapp_nil_l in H).

Lemma repr_quote_cases s : repr_quote s = squote ∨ repr_quote s = dquote.
Proof. unfold repr_quote. destruct (_ && _); auto. Qed.

(** [read_char] undoes [repr_char], whatever follows. *)
Lemma read_repr_char q c r :
  q = squote ∨ q = dquote → read_char q (repr_char q c +:+ r) = Some (c, r).
Proof.
  intros [-> | ->]; destruct c as [[] [] [] [] [] [] [] []]; reflexivity.
Qed.

Lemma read_closing_quote q r :
  q = squote ∨ q = dquote → read_char q (String q r) = None.
Proof. intros [-> | ->]; reflexivity. Qed.

Lemma repr_body_inj q s s' r r' :
  q = squote ∨ q = dquote →
  repr_body q s +:+ String q r = repr_body q s' +:+ String q r' →
  s = s' ∧ r = r'.
Proof.
  intros Hq. revert s'.
  induction s as [|c s IH]; intros [|c' s'] H; cbn [repr_body] in H;
    app_norm H.
  - by simplify_eq.
  - apply (f_equal (read_char q)) in H.
    rewrite read_closing_quote, read_repr_char in H by done. discriminate.
  - apply (f_equal (read_char q)) in H.
    rewrite read_closing_quote, read_repr_char in H by done. discriminate.
  - apply (f_equal (read_char q)) in H.
    rewrite !read_repr_char in H by done.
    injection H as -> H. apply IH in H as [-> ->]. done.
Qed.

(** No [repr] of a string is a proper prefix of another. *)
Lemma repr_str_inj s s' r r' :
  repr_str s +:+ r = repr_str s' +:+ r' → s = s' ∧ r = r'.
Proof.
  unfold repr_str. intros H. app_norm H. injection H as Hq H.
  rewrite <- Hq in H. eapply repr_body_inj; [apply repr_quote_cases | done].
Qed.

Lemma string_of_uint_inj u u' r r' :
  delimited r = true → delimited r' = true →
  NilEmpty.string_of_uint u +:+ r = NilEmpty.string_of_uint u' +:+ r' →
  u = u' ∧ r = r'.
Proof.
  intros Hr Hr'. revert u'.
  induction u as [|u IH|u IH|u IH|u IH|u IH|u IH|u IH|u IH|u IH|u IH];
    intros u' H; destruct u'; cbn [NilEmpty.string_of_uint] in H;
    app_norm H; subst; try discriminate; try done;
    injection H as H; apply IH in H as [-> ->]; done.
Qed.

Lemma repr_int_inj z z' r r' :
  delimited r = true → delimited r' = true →
  repr_int z +:+ r = repr_int z' +:+ r' → z = z' ∧ r = r'.
Proof.
  intros Hr Hr' H.
  cut (Z.to_int z = Z.to_int z' ∧ r = r').
  { intros [Hz ->]. split; [|done].
    by rewrite <- (DecimalZ.of_to z), Hz, DecimalZ.of_to. }
  unfold repr_int, NilEmpty.string_of_int in H.
  destruct (Z.to_int z) as [u|u], (Z.to_int z') as [u'|u']; app_norm H.
  - apply string_of_uint_inj in H as [-> ->]; done.
  - destruct u; cbn [NilEmpty.string_of_uint] in H; app_norm H;
      subst; discriminate.
  - destruct u'; cbn [NilEmpty.string_of_uint] in H; app_norm H;
      subst; discriminate.
  - injection H as H. apply string_of_uint_inj in H as [-> ->]; done.
Qed.

(** The [repr] of a value, followed by a delimiter, determines the
    value. *)
Lemma repr_inj v v' r r' :
  delimited r = true → delimited r' = true →
  repr v +:+ r = repr v' +:+ r' → v = v' ∧ r = r'.
Proof.
  intros Hr Hr' H. destruct v as [z|s], v' as [z'|s']; cbn [repr] in H.
  - apply repr_int_inj in H as [-> ->]; done.
  - exfalso. unfold repr_int, NilEmpty.string_of_int, repr_str in H.
    destruct (repr_quote_cases s') as [Hq | Hq]; rewrite Hq in H;
      destruct (Z.to_int z) as [[] | []];
      cbn [NilEmpty.string_of_uint] in H; app_norm H;
      subst; discriminate.
  - exfalso. unfold repr_int, NilEmpty.string_of_int, repr_str in H.
    destruct (repr_quote_cases s) as [Hq | Hq]; rewrite Hq in H;
      destruct (Z.to_int z') as [[] | []];
      cbn [NilEmpty.string_of_uint] in H; app_norm H;
      subst; discriminate.
  - apply repr_str_inj in H as [-> ->]; done.
Qed.

Lemma repr_str_head s r : delimited (repr_str s +:+ r) = false.
Proof.
  unfold repr_str. destruct (repr_quote_cases s) as [-> | ->]; reflexivity.
Qed.

(** A [repr] is not empty and does not start with a delimiter. *)
Lemma repr_head v r : delimited (repr v +:+ r) = false.
Proof.
  destruct v as [z|s]; cbn [repr]; [|apply repr_str_head].
  unfold repr_int, NilEmpty.string_of_int.
  destruct z as [|p|p]; cbn [Z.to_int]; [reflexivity| |reflexivity].
  pose proof (DecimalPos.Unsigned.to_uint_nonnil p) as Hnil.
  destruct (Pos.to_uint p); [done|reflexivity..].
Qed.

Lemma repr_item_inj kv kv' r r' :
  delimited r = true → delimited r' = true →
  repr_item kv +:+ r = repr_item kv' +:+ r' → kv = kv' ∧ r = r'.
Proof.
  intros Hr Hr' H. destruct kv as [k v], kv' as [k' v'].
  unfold repr_item in H. cbn [fst snd] in H. rewrite !sapp_assoc in H.
  apply repr_str_inj in H as [-> H]. app_norm H. injection H as H.
  apply repr_inj in H as [-> ->]; done.
Qed.

Lemma repr_item_head kv r : delimited (repr_item kv +:+ r) = false.
Proof. unfold repr_item. rewrite sapp_assoc. apply repr_str_head. Qed.

(** Items joined by [", "] and closed by a bracket. *)
Section Items.

Context {A : Type} (enc : A → string) (close : ascii).
Hypothesis close_delimited : delimited (String close "") = true.
Hypothesis close_not_comma : close ≠ ","%char.
Hypothesis enc_inj : ∀ a a' r r',
  delimited r = true → delimited r' = true →
  enc a +:+ r = enc a' +:+ r' → a = a' ∧ r = r'.
Hypothesis enc_head : ∀ a r, delimited (enc a +:+ r) = false.

Abbreviation items_tail := (items_tail enc close).

Lemma join_cons a l r :
  join ", " (map enc (a :: l)) +:+ String close r
  = enc a +:+ items_tail l r.
Proof.
  destruct l as [|b l]; [reflexivity|].
  cbn [map join items_tail]. by rewrite !sapp_assoc.
Qed.

Lemma items_tail_delimited l r : delimited (items_tail l r) = true.
Proof. destruct l; [apply close_delimited | reflexivity]. Qed.

Lemma join_inj l l' r r' :
  join ", " (map enc l) +:+ String close r
  = join ", " (map enc l') +:+ String close r' →
  l = l' ∧ r = r'.
Proof.
  revert l'. induction l as [|a l IH]; intros [|a' l'] H.
  - cbn [map join] in H. app_norm H. by simplify_eq.
  - rewrite join_cons in H. cbn [map join] in H. app_norm H.
    pose proof (enc_head a' (items_tail l' r')) as Hh.
    rewrite <- H in Hh.
    change (delimited (String close "") = false) in Hh. congruence.
  - rewrite join_cons in H. cbn [map join] in H. app_norm H.
    pose proof (enc_head a (items_tail l r)) as Hh.
    rewrite H in Hh.
    change (delimited (String close "") = false) in Hh. congruence.
  - rewrite !join_cons in H.
    apply enc_inj in H as [-> H]; [|apply items_tail_delimited..].
    destruct l as [|b l], l' as [|b' l']; unfold items_tail in H.
    + by simplify_eq.
    + app_norm H. by simplify_eq.
    + app_norm H. by simplify_eq.
    + apply (inj (String.app ", ")) in H.
      apply IH in H as [-> ->]. done.
Qed.

End Items.

Lemma String_tail c s s' : String c s = String c s' → s = s'.
Proof. congruence. Qed.

Lemma str_tuple_shape args r :
  str_tuple args +:+ r
  = String "(" match args with
               | [] => String ")" r
               | a :: l =>
                   repr a +:+ match l with
                              | [] => String "," (String ")" r)
                              | _ => items_tail repr ")" l r
                              end
               end.
Proof.
  destruct args as [|a [|b l]]; unfold str_tuple.
  - reflexivity.
  - by rewrite !sapp_assoc.
  - rewrite <- join_cons. by rewrite !sapp_assoc.
Qed.

Lemma str_tuple_inj args args' r r' :
  str_tuple args +:+ r = str_tuple args' +:+ r' → args = args' ∧ r = r'.
Proof.
  rewrite !str_tuple_shape. intros H%String_tail.
  destruct args as [|a l], args' as [|a' l'].
  - apply String_tail in H as ->. done.
  - apply (f_equal delimited) in H. rewrite repr_head in H. discriminate.
  - apply (f_equal delimited) in H. rewrite repr_head in H. discriminate.
  - apply repr_inj in H as [-> H]; [|by destruct l|by destruct l'].
    destruct l as [|b l], l' as [|b' l']; unfold items_tail in H.
    + by simplify_eq.
    + app_norm H. discriminate.
    + app_norm H. discriminate.
    + apply (inj (String.app ", ")) in H.
      apply (join_inj repr ")"%char) in H as [-> ->];
        [done|done|done|apply repr_inj|apply repr_head].
Qed.

Lemma str_dict_inj kwargs kwargs' r r' :
  str_dict kwargs +:+ r = str_dict kwargs' +:+ r' →
  kwargs = kwargs' ∧ r = r'.
Proof.
  unfold str_dict. rewrite !sapp_assoc, !sapp_String, !sapp_nil_l.
  intros H%String_tail. revert H.
  apply (join_inj repr_item "}"%char);
    [done|done|apply repr_item_inj|apply repr_item_head].
Qed.

(** A name without a colon ends at the first colon of the key. *)
Lemma name_inj n n' r r' :
  plain_name n = true → plain_name n' = true →
  n +:+ String ":" r = n' +:+ String ":" r' → n = n' ∧ r = r'.
Proof.
  unfold plain_name. revert n'.
  induction n as [|c n IH]; intros [|c' n'] Hn Hn' H; app_norm H.
  - by simplify_eq.
  - injection H as <- _. discriminate.
  - injection H as -> _. discriminate.
  - injection H as -> H. cbn [contains] in Hn, Hn'.
    rewrite negb_orb in Hn, Hn'.
    apply andb_prop in Hn as [_ Hn], Hn' as [_ Hn'].
    apply IH in H as [-> ->]; done.
Qed.

(** For one function name, the key determines the positional tuple and
    the named arguments with their order. *)
Lemma make_key_args_inj name args args' kwargs kwargs' :
  make_key name args kwargs = make_key name args' kwargs' →
  args = args' ∧ kwargs = kwargs'.
Proof.
  unfold make_key. intros H. apply (inj (String.app name)) in H.
  rewrite !sapp_String, !sapp_nil_l in H. apply String_tail in H.
  apply str_tuple_inj in H as [-> H]. apply String_tail in H.
  split; [done|].
  assert (str_dict kwargs +:+ "" = str_dict kwargs' +:+ "") as H'.
  { by rewrite H. }
  apply str_dict_inj in H' as [-> _]. done.
Qed.

(** For names without a colon, the key determines name and arguments. *)
Lemma make_key_inj name name' args args' kwargs kwargs' :
  plain_name name = true → plain_name name' = true →
  make_key name args kwargs = make_key name' args' kwargs' →
  name = name' ∧ args = args' ∧ kwargs = kwargs'.
Proof.
  unfold make_key. intros Hn Hn' H.
  rewrite !sapp_String, !sapp_nil_l in H.
  apply name_inj in H as [-> H]; [|done..].
  split; [done|]. apply (make_key_args_inj name'). unfold make_key.
  rewrite !sapp_String, !sapp_nil_l. by rewrite H.
Qed.

End KeyFacts.

(** ** The two paths of the wrapper *)

Section WrapperFacts.

Context {V Exc X : Type} (datetime_now : X → Z * X).

Implicit Types (func : Func V Exc X) (w : World V X) (x : X) (v : V).
Implicit Types (args : Args) (kwargs : Kwargs) (expiry t : Z).


Lemma later_later w x x' : later (later w x) x' = later w x'.
Proof. reflexivity. Qed.

Lemma later_outside w : later w (outside w) = w.
Proof. by destruct w. Qed.

(** No entry under the key: the function is awaited. *)
Lemma wrapper_absent func expiry args kwargs w :
  cache w !! make_key (__name__ func) args kwargs = None →
  wrapper datetime_now func expiry args kwargs w
  = refresh datetime_now func args kwargs w.
Proof.
  intros Hk. unfold wrapper, bind, cache_get. rewrite Hk.
  reflexivity.
Qed.

(** An entry under the key: the clock is read and compared. *)
Lemma wrapper_found func expiry args kwargs w t0 v0 :
  cache w !! make_key (__name__ func) args kwargs = Some (t0, v0) →
  wrapper datetime_now func expiry args kwargs w
  = let (t, x) := datetime_now (outside w) in
    if t - t0 <? expiry then (inr v0, later w x)
    else refresh datetime_now func args kwargs (later w x).
Proof.
  intros Hk. unfold wrapper, bind, cache_get, now. rewrite Hk.
  destruct (datetime_now (outside w)) as [t x].
  unfold ret. destruct (t - t0 <? expiry); reflexivity.
Qed.

Lemma wrapper_hit func expiry args kwargs w t0 v0 t x :
  cache w !! make_key (__name__ func) args kwargs = Some (t0, v0) →
  datetime_now (outside w) = (t, x) → t - t0 < expiry →
  wrapper datetime_now func expiry args kwargs w = (inr v0, later w x).
Proof.
  intros Hk Ht Hlt. rewrite (wrapper_found _ _ _ _ _ _ _ Hk), Ht.
  by apply Z.ltb_lt in Hlt as ->.
Qed.

Lemma wrapper_expired func expiry args kwargs w t0 v0 t x :
  cache w !! make_key (__name__ func) args kwargs = Some (t0, v0) →
  datetime_now (outside w) = (t, x) → expiry ≤ t - t0 →
  wrapper datetime_now func expiry args kwargs w
  = refresh datetime_now func args kwargs (later w x).
Proof.
  intros Hk Ht Hge. rewrite (wrapper_found _ _ _ _ _ _ _ Hk), Ht.
  by apply Z.ltb_ge in Hge as ->.
Qed.

(** What awaiting the function and storing its result does. *)
Lemma refresh_eq func args kwargs w :
  refresh datetime_now func args kwargs w
  = match run func args kwargs (outside w) with
    | (inl e, x1) =>
        (inl e, {| cache := cache w; outside := x1;
                   awaited := awaited w ++ [(__name__ func, args, kwargs)] |})
    | (inr v, x1) =>
        let (t, x2) := datetime_now x1 in
        (inr v, {| cache := <[make_key (__name__ func) args kwargs := (t, v)]>
                              (cache w);
                   outside := x2;
                   awaited := awaited w ++ [(__name__ func, args, kwargs)] |})
    end.
Proof.
  unfold refresh, bind, await, now, cache_put, ret, later.
  destruct (run func args kwargs (outside w)) as [[e|v] x1]; [done|].
  cbn. by destruct (datetime_now x1).
Qed.

Lemma refresh_returns func args kwargs w v w1 :
  refresh datetime_now func args kwargs w = (inr v, w1) →
  ∃ x1 t x2,
    run func args kwargs (outside w) = (inr v, x1)
    ∧ datetime_now x1 = (t, x2)
    ∧ w1 = {| cache := <[make_key (__name__ func) args kwargs := (t, v)]>
                         (cache w);
              outside := x2;
              awaited := awaited w ++ [(__name__ func, args, kwargs)] |}.
Proof.
  rewrite refresh_eq.
  destruct (run func args kwargs (outside w)) as [[e|v'] x1]; [done|].
  destruct (datetime_now x1) as [t x2] eqn:Ht.
  intros [= -> <-]. by exists x1, t, x2.
Qed.

Lemma refresh_raises func args kwargs w e w1 :
  refresh datetime_now func args kwargs w = (inl e, w1) →
  ∃ x1,
    run func args kwargs (outside w) = (inl e, x1)
    ∧ w1 = {| cache := cache w; outside := x1;
              awaited := awaited w ++ [(__name__ func, args, kwargs)] |}.
Proof.
  rewrite refresh_eq.
  destruct (run func args kwargs (outside w)) as [[e'|v'] x1].
  - intros [= -> <-]. by exists x1.
  - by destruct (datetime_now x1).
Qed.

(** Awaiting the function always adds its call to the record and returns
    what the function returned or raised. *)
Lemma refresh_awaits func args kwargs w :
  awaited (refresh datetime_now func args kwargs w).2
  = awaited w ++ [(__name__ func, args, kwargs)]
  ∧ (refresh datetime_now func args kwargs w).1
    = (run func args kwargs (outside w)).1.
Proof.
  rewrite refresh_eq.
  destruct (run func args kwargs (outside w)) as [[e|v] x1]; [done|].
  by destruct (datetime_now x1).
Qed.

(** Either path leaves the entries under other keys alone. *)
Lemma wrapper_frame func expiry args kwargs w k :
  k ≠ make_key (__name__ func) args kwargs →
  cache (wrapper datetime_now func expiry args kwargs w).2 !! k = cache w !! k.
Proof.
  intros Hne.
  assert (Hr : ∀ w', cache (refresh datetime_now func args kwargs w').2 !! k
                     = cache w' !! k).
  { intros w'. rewrite refresh_eq.
    destruct (run func args kwargs (outside w')) as [[e|v] x1]; [done|].
    destruct (datetime_now x1). cbn. by rewrite lookup_insert_ne. }
  destruct (cache w !! make_key (__name__ func) args kwargs)
    as [[t0 v0]|] eqn:Hk.
  - rewrite (wrapper_found _ _ _ _ _ _ _ Hk).
    destruct (datetime_now (outside w)) as [t x].
    destruct (t - t0 <? expiry); [done|]. by rewrite Hr.
  - rewrite wrapper_absent by done. apply Hr.
Qed.

(** A list does not end with an element added to itself. *)
Lemma snoc_neq {A : Type} (l : list A) (a : A) : l ≠ l ++ [a].
Proof.
  intros H%(f_equal length). rewrite length_app in H. cbn in H. lia.
Qed.

Lemma filter_key_absent {A : Type} (l : list (string * A)) k :
  k ∉ l.*1 → filter (λ kv, kv.1 = k) l = [].
Proof.
  induction l as [|[k' e'] l IH]; [done|].
  cbn [fmap list_fmap fst]. intros [Hne Hni]%not_elem_of_cons.
  rewrite filter_cons_False by (cbn; congruence). by apply IH.
Qed.

(** Among entries with distinct keys, one key selects one entry. *)
Lemma filter_key_NoDup {A : Type} (l : list (string * A)) k e :
  NoDup l.*1 → (k, e) ∈ l → filter (λ kv, kv.1 = k) l = [(k, e)].
Proof.
  induction l as [|[k' e'] l IH]; cbn [fmap list_fmap fst].
  - by intros _ ?%elem_of_nil.
  - intros [Hk' Hnd]%NoDup_cons Hin.
    apply elem_of_cons in Hin as [[= <- <-] | Hin].
    + rewrite filter_cons_True by done. f_equal.
      by apply filter_key_absent.
    + rewrite filter_cons_False; [by apply IH|].
      cbn. intros ->. apply Hk'. apply list_elem_of_fmap. by exists (k, e).
Qed.

(** ** Hits, misses and failures *)

(** C1. After a call returned a value, the store holds that value under
    the key with some timestamp [t0]; a later call of the same function
    with the same arguments that finds this entry at a time [t] with
    [t - t0 < expiry] returns the stored value, leaves store and record
    of invocations as they are, and so does not await the function.  When
    the first call found no entry, it awaited the function once: the two
    calls together invoke it exactly once. *)
Theorem hit_within_window func expiry args kwargs w v w1 :
  wrapper datetime_now func expiry args kwargs w = (inr v, w1) →
  ∃ t0,
    cache w1 !! make_key (__name__ func) args kwargs = Some (t0, v)
    ∧ (cache w !! make_key (__name__ func) args kwargs = None →
       awaited w1 = awaited w ++ [(__name__ func, args, kwargs)])
    ∧ ∀ w2 t x',
        cache w2 !! make_key (__name__ func) args kwargs = Some (t0, v) →
        datetime_now (outside w2) = (t, x') → t - t0 < expiry →
        wrapper datetime_now func expiry args kwargs w2 = (inr v, later w2 x').
Proof.
  intros H.
  assert (Hhit : ∀ t0 w2 t x',
    cache w2 !! make_key (__name__ func) args kwargs = Some (t0, v) →
    datetime_now (outside w2) = (t, x') → t - t0 < expiry →
    wrapper datetime_now func expiry args kwargs w2 = (inr v, later w2 x')).
  { intros. by eapply wrapper_hit. }
  destruct (cache w !! make_key (__name__ func) args kwargs)
    as [[ts v0]|] eqn:Hk.
  - rewrite (wrapper_found _ _ _ _ _ _ _ Hk) in H.
    destruct (datetime_now (outside w)) as [t x].
    destruct (t - ts <? expiry).
    + injection H as <- <-. exists ts. split; [done|]. split; [done|].
      apply Hhit.
    + apply refresh_returns in H as (x1 & t1 & x2 & _ & _ & ->).
      exists t1. cbn [cache]. rewrite lookup_insert_eq.
      split; [done|]. split; [done|]. apply Hhit.
  - rewrite wrapper_absent in H by done.
    apply refresh_returns in H as (x1 & t1 & x2 & _ & _ & ->).
    exists t1. cbn [cache awaited]. rewrite lookup_insert_eq.
    split; [done|]. split; [done|]. apply Hhit.
Qed.

(** C3. An entry whose age equals the window is expired: the call awaits
    the function again and returns what the function returns or raises,
    not the stored value. *)
Theorem boundary_is_exclusive func expiry args kwargs w t0 v0 t x :
  cache w !! make_key (__name__ func) args kwargs = Some (t0, v0) →
  datetime_now (outside w) = (t, x) →
  t - t0 = expiry →
  awaited (wrapper datetime_now func expiry args kwargs w).2
  = awaited w ++ [(__name__ func, args, kwargs)]
  ∧ (wrapper datetime_now func expiry args kwargs w).1
    = (run func args kwargs x).1.
Proof.
  intros Hk Ht Hage.
  rewrite (wrapper_expired _ _ _ _ _ _ _ _ _ Hk Ht) by lia.
  apply (refresh_awaits func args kwargs (later w x)).
Qed.


(** C5. A call that finds no entry awaits the function with its
    arguments, stores the result under the key with the clock reading
    taken then, and returns the result.  A second call once the window
    has elapsed finds the entry expired, awaits the function a second
    time, replaces the entry and returns the second result. *)
Theorem miss_after_expiry func expiry args kwargs w v1 xa t0 xb x t x1 v2 x2 t2
    x3 :
  cache w !! make_key (__name__ func) args kwargs = None →
  run func args kwargs (outside w) = (inr v1, xa) →
  datetime_now xa = (t0, xb) →
  datetime_now x = (t, x1) →
  expiry ≤ t - t0 →
  run func args kwargs x1 = (inr v2, x2) →
  datetime_now x2 = (t2, x3) →
  wrapper datetime_now func expiry args kwargs w
  = (inr v1, {| cache := <[make_key (__name__ func) args kwargs := (t0, v1)]>
                           (cache w);
                outside := xb;
                awaited := awaited w ++ [(__name__ func, args, kwargs)] |})
  ∧ wrapper datetime_now func expiry args kwargs
      (later (wrapper datetime_now func expiry args kwargs w).2 x)
    = (inr v2, {| cache := <[make_key (__name__ func) args kwargs := (t2, v2)]>
                             (cache w);
                  outside := x3;
                  awaited := awaited w ++ [(__name__ func, args, kwargs);
                                           (__name__ func, args, kwargs)] |}).
Proof.
  intros Hk Hrun1 Ht0 Ht Hage Hrun2 Ht2.
  assert (H1 : wrapper datetime_now func expiry args kwargs w
    = (inr v1, {| cache := <[make_key (__name__ func) args kwargs := (t0, v1)]>
                           (cache w);
                  outside := xb;
                  awaited := awaited w ++ [(__name__ func, args, kwargs)] |})).
  { rewrite wrapper_absent, refresh_eq by done. by rewrite Hrun1, Ht0. }
  split; [exact H1|]. rewrite H1. cbn [snd].
  rewrite (wrapper_expired _ _ _ _ _ t0 v1 t x1);
    [|by cbn; rewrite lookup_insert_eq|done|done].
  rewrite refresh_eq. cbn [outside later cache awaited].
  rewrite Hrun2, Ht2. by rewrite insert_insert_eq, <- List.app_assoc.
Qed.

(** ** The store: clearing and writing *)


(** C7. [clear_cache] never raises, returns its confirmation message and
    leaves an empty store; clearing twice is the same as clearing once.
    After it every call, whatever the function, the arguments, the
    window and the time, awaits the function afresh. *)
Theorem clear_resets_state w :
  clear_cache (Exc:=Exc) w
  = (inr [("message", "Cache cleared successfully")],
     {| cache := ∅; outside := outside w; awaited := awaited w |})
  ∧ clear_cache (Exc:=Exc) (clear_cache (Exc:=Exc) w).2
    = clear_cache (Exc:=Exc) w
  ∧ ∀ func expiry args kwargs x,
      awaited (wrapper datetime_now func expiry args kwargs
                 (later (clear_cache (Exc:=Exc) w).2 x)).2
      = awaited w ++ [(__name__ func, args, kwargs)]
      ∧ (wrapper datetime_now func expiry args kwargs
           (later (clear_cache (Exc:=Exc) w).2 x)).1
        = (run func args kwargs x).1.
Proof.
  split; [reflexivity|]. split; [reflexivity|].
  intros func expiry args kwargs x.
  rewrite wrapper_absent by apply lookup_empty.
  apply (refresh_awaits func args kwargs (later (clear_cache (Exc:=Exc) w).2 x)).
Qed.

(** C8. Writing [cache[key] = entry] never raises; afterwards the store
    has exactly one entry under [key], the one written, the other keys
    keep their entries, and no key ever has two entries.  Written over an
    existing entry it replaces it: the number of entries stays. *)
Theorem put_overwrites key (entry : Z * V) w :
  (cache_put (Exc:=Exc) key entry w).1 = inr tt
  ∧ cache (cache_put (Exc:=Exc) key entry w).2 !! key = Some entry
  ∧ (∀ k, k ≠ key →
       cache (cache_put (Exc:=Exc) key entry w).2 !! k = cache w !! k)
  ∧ filter (λ kv, kv.1 = key)
      (map_to_list (cache (cache_put (Exc:=Exc) key entry w).2))
    = [(key, entry)]
  ∧ NoDup (map_to_list (cache (cache_put (Exc:=Exc) key entry w).2)).*1
  ∧ (is_Some (cache w !! key) →
     size (cache (cache_put (Exc:=Exc) key entry w).2) = size (cache w)).
Proof.
  cbn [cache_put fst snd cache].
  split; [done|]. split; [apply lookup_insert_eq|].
  split; [by intros k Hne; apply lookup_insert_ne|].
  split; [|split].
  - apply filter_key_NoDup; [apply NoDup_fst_map_to_list|].
    apply elem_of_map_to_list, lookup_insert_eq.
  - apply NoDup_fst_map_to_list.
  - intros [e He]. by eapply map_size_insert_Some.
Qed.

(** C9. After a call that awaited the function and returned, the entry
    carries the clock reading taken in the world as the function left it,
    not a reading from when the store was consulted; a later call that
    finds the entry is a hit exactly while the clock is before that
    reading plus the window. *)
Theorem timestamp_after_fetch func expiry args kwargs w v w1 :
  wrapper datetime_now func expiry args kwargs w = (inr v, w1) →
  awaited w1 = awaited w ++ [(__name__ func, args, kwargs)] →
  ∃ x1 x2,
    (x1 = outside w ∨ x1 = (datetime_now (outside w)).2)
    ∧ run func args kwargs x1 = (inr v, x2)
    ∧ outside w1 = (datetime_now x2).2
    ∧ cache w1 !! make_key (__name__ func) args kwargs
      = Some ((datetime_now x2).1, v)
    ∧ ∀ x,
        ((datetime_now x).1 < (datetime_now x2).1 + expiry →
         wrapper datetime_now func expiry args kwargs (later w1 x)
         = (inr v, later w1 (datetime_now x).2))
        ∧ ((datetime_now x2).1 + expiry ≤ (datetime_now x).1 →
           awaited (wrapper datetime_now func expiry args kwargs (later w1 x)).2
           = awaited w1 ++ [(__name__ func, args, kwargs)]).
Proof.
  intros H Hmiss.
  assert (Hfresh : ∀ w0,
    refresh datetime_now func args kwargs w0 = (inr v, w1) →
    ∃ x2,
      run func args kwargs (outside w0) = (inr v, x2)
      ∧ outside w1 = (datetime_now x2).2
      ∧ cache w1 !! make_key (__name__ func) args kwargs
      = Some ((datetime_now x2).1, v)
      ∧ ∀ x,
          ((datetime_now x).1 < (datetime_now x2).1 + expiry →
           wrapper datetime_now func expiry args kwargs (later w1 x)
           = (inr v, later w1 (datetime_now x).2))
          ∧ ((datetime_now x2).1 + expiry ≤ (datetime_now x).1 →
             awaited (wrapper datetime_now func expiry args kwargs
                        (later w1 x)).2
             = awaited w1 ++ [(__name__ func, args, kwargs)])).
  { intros w0 (x2 & t2 & x3 & Hrun & Ht2 & Hw1)%refresh_returns.
    exists x2. rewrite Ht2. cbn [fst snd].
    assert (Hk : cache w1 !! make_key (__name__ func) args kwargs
                 = Some (t2, v)).
    { rewrite Hw1. cbn [cache]. apply lookup_insert_eq. }
    split; [done|]. split; [by rewrite Hw1|]. split; [done|].
    intros x. destruct (datetime_now x) as [t x'] eqn:Ht. cbn [fst snd].
    split; intros Hage.
    - apply (wrapper_hit _ _ _ _ (later w1 x) t2 v t x'); [done|done|lia].
    - rewrite (wrapper_expired _ _ _ _ (later w1 x) t2 v t x')
        by (done || lia).
      apply (refresh_awaits func args kwargs (later (later w1 x) x')). }
  destruct (cache w !! make_key (__name__ func) args kwargs)
    as [[ts v0]|] eqn:Hk.
  - rewrite (wrapper_found _ _ _ _ _ _ _ Hk) in H.
    destruct (datetime_now (outside w)) as [t x0] eqn:Ht.
    destruct (t - ts <? expiry).
    + injection H as <- <-. by apply snoc_neq in Hmiss.
    + apply Hfresh in H as (x2 & ?). exists x0, x2. split; [by right|done].
  - rewrite wrapper_absent in H by done.
    apply Hfresh in H as (x2 & ?). exists (outside w), x2.
    split; [by left|done].
Qed.

(** C10. Calls that hit write nothing: however many of them are served
    within the window of an entry, each returns the stored value, the
    store is the same map as before, timestamp included, and the function
    is not awaited; the first call at or after the entry's timestamp plus
    the window awaits the function. *)
Theorem hit_writes_nothing func expiry args kwargs (xs : list X) w t0 v :
  cache w !! make_key (__name__ func) args kwargs = Some (t0, v) →
  Forall (λ x, (datetime_now x).1 - t0 < expiry) xs →
  (serve datetime_now func expiry args kwargs xs w).1
  = replicate (length xs) (inr v)
  ∧ cache (serve datetime_now func expiry args kwargs xs w).2 = cache w
  ∧ awaited (serve datetime_now func expiry args kwargs xs w).2 = awaited w
  ∧ ∀ x,
      t0 + expiry ≤ (datetime_now x).1 →
      awaited (wrapper datetime_now func expiry args kwargs
                 (later (serve datetime_now func expiry args kwargs xs w).2 x)).2
      = awaited w ++ [(__name__ func, args, kwargs)].
Proof.
  intros Hk Hxs.
  assert (Hrun : (serve datetime_now func expiry args kwargs xs w).1
                 = replicate (length xs) (inr v)
                 ∧ cache (serve datetime_now func expiry args kwargs xs w).2
                   = cache w
                 ∧ awaited (serve datetime_now func expiry args kwargs xs w).2
                   = awaited w).
  { revert w Hk. induction Hxs as [|x xs Hx _ IH]; intros w Hk; [done|].
    cbn [serve length replicate].
    destruct (datetime_now x) as [t x'] eqn:Ht. cbn [fst] in Hx.
    rewrite (wrapper_hit _ _ _ _ (later w x) t0 v t x') by done.
    destruct (IH (later (later w x) x') Hk) as (Hr & Hc & Ha).
    destruct (serve datetime_now func expiry args kwargs xs
                (later (later w x) x'))
      as [rs w2].
    cbn [fst snd] in *. by rewrite Hr, Hc, Ha. }
  destruct Hrun as (Hr & Hc & Ha). split; [done|]. split; [done|].
  split; [done|].
  intros x Hage. destruct (datetime_now x) as [t x'] eqn:Ht.
  cbn [fst] in Hage.
  rewrite (wrapper_expired _ _ _ _ (later _ x) t0 v t x');
    [|by cbn [cache later]; rewrite Hc|done|lia].
  rewrite <- Ha.
  apply (refresh_awaits func args kwargs
           (later (later (serve datetime_now func expiry args kwargs xs w).2 x)
              x')).
Qed.

End WrapperFacts.

(** ** Keys and call forms *)

(** C2, as the code has it.  The key is a function of the function name,
    the positional tuple and the named arguments as the call wrote them:
    two calls of functions with one name derive the same key exactly when
    their positional tuples are equal and their named arguments are equal
    in names, values and order.  The same values in another call form give
    another key. *)
Theorem key_follows_call_form {V Exc X : Type} (f g : Func V Exc X)
    (args args' : Args) (kwargs kwargs' : Kwargs) :
  __name__ f = __name__ g →
  make_key (__name__ f) args kwargs = make_key (__name__ g) args' kwargs'
  ↔ args = args' ∧ kwargs = kwargs'.
Proof.
  intros <-. split.
  - apply make_key_args_inj.
  - by intros [-> ->].
Qed.

(** C6, as the code has it.  Functions are told apart by their names only:
    when the names (without colons) differ, or the positional tuples
    differ, or the named arguments differ, the keys differ, and a call
    under one key leaves the entry under the other alone. *)
Theorem keys_discriminate_names_and_arguments {V Exc X : Type}
    (datetime_now : X → Z * X) (f g : Func V Exc X)
    (args args' : Args) (kwargs kwargs' : Kwargs) :
  plain_name (__name__ f) = true →
  plain_name (__name__ g) = true →
  __name__ f ≠ __name__ g ∨ args ≠ args' ∨ kwargs ≠ kwargs' →
  make_key (__name__ f) args kwargs ≠ make_key (__name__ g) args' kwargs'
  ∧ ∀ expiry w,
      cache (wrapper datetime_now g expiry args' kwargs' w).2
        !! make_key (__name__ f) args kwargs
      = cache w !! make_key (__name__ f) args kwargs.
Proof.
  intros Hf Hg Hne.
  assert (Hkey : make_key (__name__ f) args kwargs
                 ≠ make_key (__name__ g) args' kwargs').
  { intros (Hn & Ha & Hk)%make_key_inj; [|done..].
    destruct Hne as [Hne | [Hne | Hne]]; by apply Hne. }
  split; [done|]. intros expiry w. by apply wrapper_frame.
Qed.

(** ** The facts on a concrete world *)

Module Witness.

Import Scenario.

(** The same team id, given by position and by name, binds the same
    parameter and gives two keys; so do two orders of named arguments.
    A call by name after a call by position awaits the function again. *)
Lemma call_forms_give_different_keys :
  bind_arguments ["team_id"] [PStr "T1"] []
  = bind_arguments ["team_id"] [] [("team_id", PStr "T1")]
  ∧ make_key "get_team_profile" [PStr "T1"] []
    ≠ make_key "get_team_profile" [] [("team_id", PStr "T1")]
  ∧ bind_arguments ["year"; "season_type"]
      [] [("year", PInt 2023); ("season_type", PStr "REG")]
    = bind_arguments ["year"; "season_type"]
        [] [("season_type", PStr "REG"); ("year", PInt 2023)]
  ∧ make_key "get_schedule" []
      [("year", PInt 2023); ("season_type", PStr "REG")]
    ≠ make_key "get_schedule" []
        [("season_type", PStr "REG"); ("year", PInt 2023)]
  ∧ awaited
      (call get_team_profile h12 [] [("team_id", PStr "T1")]
         (later (call get_team_profile h12 T1 []
                   (start 0 [inr team_a; inr team_b])).2
            (60000000, [inr team_b]))).2
    = [("get_team_profile", T1, []);
       ("get_team_profile", [], [("team_id", PStr "T1")])].
Proof.
  split; [reflexivity|]. split; [by vm_compute|].
  split; [reflexivity|]. split; [by vm_compute|]. reflexivity.
Qed.

(** Two functions with one name share the entry: the second is not
    awaited and its caller gets the response of the first. *)
Lemma same_name_shares_entry :
  get_team_profile ≠ get_team_profile_v2
  ∧ make_key (__name__ get_team_profile) T1 []
    = make_key (__name__ get_team_profile_v2) T1 []
  ∧ (call get_team_profile_v2 h12 T1 []
       (later (call get_team_profile h12 T1 [] (start 0 [inr team_a])).2
          (60000000, []))).1
    = inr team_a
  ∧ awaited
      (call get_team_profile_v2 h12 T1 []
         (later (call get_team_profile h12 T1 [] (start 0 [inr team_a])).2
            (60000000, []))).2
    = [("get_team_profile", T1, [])].
Proof.
  split.
  - intros H. apply (f_equal (λ f, (run f [] [] (0, [])).1)) in H.
    vm_compute in H. discriminate.
  - split; [reflexivity|]. split; reflexivity.
Qed.

(** Two calls at 0 s and at 60 s: one invocation, one value. *)
Lemma hit_within_window_witness :
  let w0 := start 0 [inr team_a; inr team_b] in
  let w1 := (call get_team_profile h12 T1 [] w0).2 in
  call get_team_profile h12 T1 [] w0 = (inr team_a, w1)
  ∧ ∃ t0,
      cache w1 !! make_key "get_team_profile" T1 [] = Some (t0, team_a)
      ∧ (cache w0 !! make_key "get_team_profile" T1 [] = None →
         awaited w1 = awaited w0 ++ [("get_team_profile", T1, [])])
      ∧ ∀ w2 t x',
          cache w2 !! make_key "get_team_profile" T1 [] = Some (t0, team_a) →
          clock (outside w2) = (t, x') → t - t0 < h12 →
          call get_team_profile h12 T1 [] w2 = (inr team_a, later w2 x').
Proof.
  intros w0 w1. split; [reflexivity|].
  apply (hit_within_window clock get_team_profile h12 T1 [] w0 team_a w1).
  reflexivity.
Defined.

(** An entry written at 0 and read at exactly twelve hours. *)
Lemma boundary_is_exclusive_witness :
  let w := holding 0 team_a h12 [inr team_b] in
  cache w !! make_key "get_team_profile" T1 [] = Some (0, team_a)
  ∧ clock (outside w) = (h12, (h12, [inr team_b]))
  ∧ h12 - 0 = h12
  ∧ awaited (call get_team_profile h12 T1 [] w).2
    = awaited w ++ [("get_team_profile", T1, [])]
  ∧ (call get_team_profile h12 T1 [] w).1
    = (run get_team_profile T1 [] (h12, [inr team_b])).1.
Proof.
  intros w. split; [reflexivity|]. split; [reflexivity|].
  split; [reflexivity|].
  apply (boundary_is_exclusive clock get_team_profile h12 T1 [] w
           0 team_a h12 (h12, [inr team_b])); reflexivity.
Defined.



(** A first call at 0 s, a second one twelve hours after the entry was
    written. *)
Lemma miss_after_expiry_witness :
  let w := start 0 [inr team_a; inr team_b] in
  let key := make_key "get_team_profile" T1 [] in
  let c := ("get_team_profile", T1, []) in
  call get_team_profile h12 T1 [] w
  = (inr team_a, {| cache := <[key := (2000000, team_a)]> ∅;
                    outside := (2000000, [inr team_b]);
                    awaited := [c] |})
  ∧ call get_team_profile h12 T1 []
      (later (call get_team_profile h12 T1 [] w).2
         (2000000 + h12, [inr team_b]))
    = (inr team_b, {| cache := <[key := (4000000 + h12, team_b)]> ∅;
                      outside := (4000000 + h12, []);
                      awaited := [c; c] |}).
Proof.
  intros w key c.
  apply (miss_after_expiry clock get_team_profile h12 T1 [] w
           team_a (2000000, [inr team_b]) 2000000 (2000000, [inr team_b])
           (2000000 + h12, [inr team_b]) (2000000 + h12)
           (2000000 + h12, [inr team_b])
           team_b (4000000 + h12, []) (4000000 + h12) (4000000 + h12, []));
    reflexivity.
Defined.

(** An expired entry is consulted at twelve hours and five microseconds;
    the fetch takes two seconds and the new entry carries the later
    time. *)
Lemma timestamp_after_fetch_witness :
  let w := holding 0 team_a (h12 + 5) [inr team_b] in
  let w1 := (call get_team_profile h12 T1 [] w).2 in
  call get_team_profile h12 T1 [] w = (inr team_b, w1)
  ∧ cache w1 !! make_key "get_team_profile" T1 []
    = Some (h12 + 5 + 2000000, team_b).
Proof.
  intros w w1. split; [reflexivity|].
  destruct (timestamp_after_fetch clock get_team_profile h12 T1 [] w team_b w1)
    as (x1 & x2 & Hx1 & Hrun & _ & Hk & _); [reflexivity|reflexivity|].
  destruct Hx1 as [-> | ->]; vm_compute in Hrun;
    injection Hrun as <-; exact Hk.
Defined.

(** Three hits, the last one a microsecond before the window ends. *)
Lemma hit_writes_nothing_witness :
  let w := holding 0 team_a 0 [inr team_b] in
  let xs := [(1000, [inr team_b]); (60000000, [inr team_b]);
             (h12 - 1, [inr team_b])] in
  (serve clock get_team_profile h12 T1 [] xs w).1
  = [inr team_a; inr team_a; inr team_a]
  ∧ cache (serve clock get_team_profile h12 T1 [] xs w).2 = cache w
  ∧ awaited (serve clock get_team_profile h12 T1 [] xs w).2 = [].
Proof.
  intros w xs.
  destruct (hit_writes_nothing clock get_team_profile h12 T1 [] xs w 0 team_a)
    as (Hr & Hc & Ha & _).
  - reflexivity.
  - repeat constructor.
  - split; [exact Hr|]. split; [exact Hc | exact Ha].
Defined.

(** Two functions with one name, called with the same arguments. *)
Lemma key_follows_call_form_witness :
  __name__ get_team_profile = __name__ get_team_profile_v2
  ∧ (make_key (__name__ get_team_profile) T1 []
     = make_key (__name__ get_team_profile_v2) [] [("team_id", PStr "T1")]
     ↔ T1 = [] ∧ [] = [("team_id", PStr "T1")]).
Proof.
  split; [reflexivity|].
  apply (key_follows_call_form get_team_profile get_team_profile_v2).
  reflexivity.
Defined.

(** A team and a player with the same id. *)
Lemma keys_discriminate_names_and_arguments_witness :
  make_key (__name__ get_team_profile) T1 []
  ≠ make_key (__name__ get_player_profile) T1 []
  ∧ ∀ expiry w,
      cache (call get_player_profile expiry T1 [] w).2
        !! make_key (__name__ get_team_profile) T1 []
      = cache w !! make_key (__name__ get_team_profile) T1 [].
Proof.
  apply (keys_discriminate_names_and_arguments clock
           get_team_profile get_player_profile T1 T1 [] []).
  - reflexivity.
  - reflexivity.
  - left. vm_compute. discriminate.
Defined.

End Witness.

(** * More of the module *)

(** ** One call *)

Section CallFacts.

Context {V Exc X : Type} (datetime_now : X → Z * X).

Implicit Types (func : Func V Exc X) (w : World V X) (x : X) (v : V).
Implicit Types (args : Args) (kwargs : Kwargs) (expiry t : Z).

(** The two ways through [wrapper]: a valid entry is returned after one
    reading of the clock, anything else leads to the function. *)
Lemma wrapper_paths func expiry args kwargs w :
  (∃ t0 v0,
     cache w !! make_key (__name__ func) args kwargs = Some (t0, v0)
     ∧ valid_entry datetime_now func expiry args kwargs w = true
     ∧ wrapper datetime_now func expiry args kwargs w
       = (inr v0, later w (datetime_now (outside w)).2))
  ∨ (∃ x,
       valid_entry datetime_now func expiry args kwargs w = false
       ∧ wrapper datetime_now func expiry args kwargs w
         = refresh datetime_now func args kwargs (later w x)).
Proof.
  unfold valid_entry.
  destruct (cache w !! make_key (__name__ func) args kwargs)
    as [[t0 v0]|] eqn:Hk.
  - rewrite (wrapper_found _ _ _ _ _ _ _ _ Hk).
    destruct (datetime_now (outside w)) as [t x]. cbn [fst snd].
    destruct (t - t0 <? expiry).
    + left. by exists t0, v0.
    + right. by exists x.
  - right. exists (outside w). split; [done|].
    rewrite wrapper_absent by done. by rewrite later_outside.
Qed.

(** What the last lines of [wrapper] leave in the store. *)
Lemma refresh_cache func args kwargs w :
  (∃ e, (refresh datetime_now func args kwargs w).1 = inl e
        ∧ cache (refresh datetime_now func args kwargs w).2 = cache w)
  ∨ ∃ t v x',
      run func args kwargs (outside w) = (inr v, x')
      ∧ (refresh datetime_now func args kwargs w).1 = inr v
      ∧ cache (refresh datetime_now func args kwargs w).2
        = <[make_key (__name__ func) args kwargs := (t, v)]> (cache w).
Proof.
  rewrite refresh_eq.
  destruct (run func args kwargs (outside w)) as [[e|v] x1].
  { left. by exists e. }
  destruct (datetime_now x1) as [t x2]. right. by exists t, v, x1.
Qed.

(** Requests that all hit. *)
Lemma serve_hits func expiry args kwargs (xs : list X) w t0 v :
  cache w !! make_key (__name__ func) args kwargs = Some (t0, v) →
  Forall (λ x, (datetime_now x).1 - t0 < expiry) xs →
  (serve datetime_now func expiry args kwargs xs w).1
  = replicate (length xs) (inr v)
  ∧ cache (serve datetime_now func expiry args kwargs xs w).2 = cache w
  ∧ awaited (serve datetime_now func expiry args kwargs xs w).2 = awaited w.
Proof.
  intros Hk Hxs. revert w Hk.
  induction Hxs as [|x xs Hx _ IH]; intros w Hk; [done|].
  cbn [serve length replicate].
  destruct (datetime_now x) as [t x'] eqn:Ht. cbn [fst] in Hx.
  rewrite (wrapper_hit _ _ _ _ _ (later w x) t0 v t x') by done.
  destruct (IH (later (later w x) x') Hk) as (Hr & Hc & Ha).
  destruct (serve datetime_now func expiry args kwargs xs
              (later (later w x) x')) as [rs w2].
  cbn [fst snd] in *. by rewrite Hr, Hc, Ha.
Qed.

(** X1. A call awaits the function exactly when the store has no valid
    entry under its key, and then once, under the call's own name and
    arguments; with a valid entry the record of invocations and the store
    stay as they are. *)
Theorem awaits_exactly_on_miss func expiry args kwargs w :
  awaited (wrapper datetime_now func expiry args kwargs w).2
  = awaited w
    ++ (if valid_entry datetime_now func expiry args kwargs w then []
        else [(__name__ func, args, kwargs)])
  ∧ (valid_entry datetime_now func expiry args kwargs w = true →
     cache (wrapper datetime_now func expiry args kwargs w).2 = cache w).
Proof.
  destruct (wrapper_paths func expiry args kwargs w)
    as [(t0 & v0 & _ & -> & ->) | (x & -> & ->)].
  - cbn [snd later awaited cache]. by rewrite app_nil_r.
  - split; [|done].
    apply (refresh_awaits datetime_now func args kwargs (later w x)).
Qed.

(** X2. A valid entry is served to every function that carries the name
    under which it was stored: for two functions with one name and the same
    arguments the call returns the same response and leaves the same world,
    whatever the two functions would have done. *)
Theorem valid_entry_serves_any_function_of_the_name (f g : Func V Exc X)
    expiry args kwargs w :
  __name__ f = __name__ g →
  valid_entry datetime_now f expiry args kwargs w = true →
  wrapper datetime_now g expiry args kwargs w
  = wrapper datetime_now f expiry args kwargs w
  ∧ awaited (wrapper datetime_now g expiry args kwargs w).2 = awaited w.
Proof.
  intros Hn Hv.
  assert (Hv' : valid_entry datetime_now g expiry args kwargs w = true).
  { unfold valid_entry in *. by rewrite <- Hn. }
  destruct (wrapper_paths f expiry args kwargs w)
    as [(t0 & v0 & Hk & _ & ->) | (x & Hf & _)]; [|congruence].
  destruct (wrapper_paths g expiry args kwargs w)
    as [(t1 & v1 & Hk' & _ & ->) | (x & Hf & _)]; [|congruence].
  rewrite <- Hn, Hk in Hk'. by injection Hk' as <- <-.
Qed.

(** X3. A window of zero or less switches the cache off: [with_cache] keeps
    such a window as given, and every call whose clock reading is not
    before the timestamp of the stored entry awaits the function. *)
Theorem nonpositive_window_never_hits func expiry args kwargs w :
  expiry ≤ 0 →
  (∀ t0 v0,
     cache w !! make_key (__name__ func) args kwargs = Some (t0, v0) →
     t0 ≤ (datetime_now (outside w)).1) →
  awaited (with_cache datetime_now (Some expiry) func args kwargs w).2
  = awaited w ++ [(__name__ func, args, kwargs)].
Proof.
  intros He Hclock.
  change (with_cache datetime_now (Some expiry) func args kwargs w)
    with (wrapper datetime_now func expiry args kwargs w).
  destruct (wrapper_paths func expiry args kwargs w)
    as [(t0 & v0 & Hk & Hv & _) | (x & _ & ->)].
  - unfold valid_entry in Hv. rewrite Hk in Hv.
    apply Z.ltb_lt in Hv. specialize (Hclock _ _ Hk). lia.
  - apply (refresh_awaits datetime_now func args kwargs (later w x)).
Qed.

(** X4. A function decorated without a window is cached for fifteen
    minutes: a stored response is returned while its age is below
    900 000 000 microseconds, and from that age on the function is awaited
    again. *)
Theorem default_window_is_fifteen_minutes func args kwargs w t0 v0 t x :
  cache w !! make_key (__name__ func) args kwargs = Some (t0, v0) →
  datetime_now (outside w) = (t, x) →
  (t - t0 < 900000000 →
   with_cache datetime_now None func args kwargs w = (inr v0, later w x))
  ∧ (900000000 ≤ t - t0 →
     awaited (with_cache datetime_now None func args kwargs w).2
     = awaited w ++ [(__name__ func, args, kwargs)]).
Proof.
  intros Hk Ht.
  change (with_cache datetime_now None func args kwargs w)
    with (wrapper datetime_now func 900000000 args kwargs w).
  split; intros Hage.
  - by apply (wrapper_hit _ _ _ _ _ _ t0 v0 t x).
  - rewrite (wrapper_expired _ _ _ _ _ _ t0 v0 t x) by done.
    apply (refresh_awaits datetime_now func args kwargs (later w x)).
Qed.

(** X5. One fetch per window: when the first of a run of requests finds no
    entry and the function returns, and the later requests all come within
    the window of the entry written then, every request gets the first
    response and the function is awaited once in all. *)
Theorem one_fetch_per_window func expiry args kwargs w x0 (xs : list X)
    v x1 t0 x2 :
  cache w !! make_key (__name__ func) args kwargs = None →
  run func args kwargs x0 = (inr v, x1) →
  datetime_now x1 = (t0, x2) →
  Forall (λ x, (datetime_now x).1 - t0 < expiry) xs →
  (serve datetime_now func expiry args kwargs (x0 :: xs) w).1
  = replicate (S (length xs)) (inr v)
  ∧ awaited (serve datetime_now func expiry args kwargs (x0 :: xs) w).2
    = awaited w ++ [(__name__ func, args, kwargs)]
  ∧ cache (serve datetime_now func expiry args kwargs (x0 :: xs) w).2
    = <[make_key (__name__ func) args kwargs := (t0, v)]> (cache w).
Proof.
  intros Hk Hrun Ht0 Hxs. cbn [serve replicate].
  rewrite wrapper_absent, refresh_eq by done. cbn [later outside].
  rewrite Hrun, Ht0.
  match goal with
  | |- context [serve _ _ _ _ _ xs ?w1] =>
      destruct (serve_hits func expiry args kwargs xs w1 t0 v)
        as (Hr & Hc & Ha);
        [by cbn; rewrite lookup_insert_eq | done |];
      destruct (serve datetime_now func expiry args kwargs xs w1) as [rs w2]
  end.
  cbn [fst snd cache awaited] in *. by rewrite Hr, Hc, Ha.
Qed.

End CallFacts.

(** ** Requests one after another *)

Section TrafficFacts.

Context {V Exc X : Type} (datetime_now : X → Z * X).

Implicit Types (func : Func V Exc X) (w : World V X) (x : X) (v : V).
Implicit Types (args : Args) (kwargs : Kwargs) (expiry t : Z).
Implicit Types (rq : X * Request V Exc X) (rqs : list (X * Request V Exc X)).

Lemma handle_cons rq rqs w :
  handle datetime_now (rq :: rqs) w
  = ((step datetime_now rq w).1
       :: (handle datetime_now rqs (step datetime_now rq w).2).1,
     (handle datetime_now rqs (step datetime_now rq w).2).2).
Proof.
  cbn [handle]. destruct (step datetime_now rq w) as [r w1]. cbn [fst snd].
  by destruct (handle datetime_now rqs w1).
Qed.

Lemma step_call x func expiry args kwargs w :
  step datetime_now (x, CallReq func expiry args kwargs) w
  = (CallReply (wrapper datetime_now func expiry args kwargs (later w x)).1,
     (wrapper datetime_now func expiry args kwargs (later w x)).2).
Proof.
  unfold step. cbn [fst snd].
  by destruct (wrapper datetime_now func expiry args kwargs (later w x)).
Qed.

Lemma step_clear x w :
  step datetime_now (x, @ClearReq V Exc X) w
  = (@ClearReply V Exc (inr [("message", "Cache cleared successfully")]),
     {| cache := ∅; outside := x; awaited := awaited w |}).
Proof. reflexivity. Qed.

(** The keys of the store after one call. *)
Lemma wrapper_dom func expiry args kwargs w :
  dom (cache w) ⊆ dom (cache (wrapper datetime_now func expiry args kwargs w).2)
  ∧ dom (cache (wrapper datetime_now func expiry args kwargs w).2)
    ⊆ dom (cache w) ∪ {[make_key (__name__ func) args kwargs]}.
Proof.
  destruct (wrapper_paths datetime_now func expiry args kwargs w)
    as [(t0 & v0 & _ & _ & ->) | (x & _ & ->)].
  { split; [done | apply union_subseteq_l]. }
  destruct (refresh_cache datetime_now func args kwargs (later w x))
    as [(e & _ & ->) | (t & v & x' & _ & _ & ->)]; cbn [later cache].
  - split; [done | apply union_subseteq_l].
  - rewrite dom_insert_L. split; [apply union_subseteq_r|].
    by rewrite (comm_L (∪)).
Qed.

(** What one call returns and stores came from the store or from the
    function. *)
Lemma wrapper_sound (P : string → V → Prop) func expiry args kwargs w :
  (∀ x v x', run func args kwargs x = (inr v, x') →
             P (make_key (__name__ func) args kwargs) v) →
  (∀ k t v, cache w !! k = Some (t, v) → P k v) →
  (∀ v, (wrapper datetime_now func expiry args kwargs w).1 = inr v →
        P (make_key (__name__ func) args kwargs) v)
  ∧ (∀ k t v,
       cache (wrapper datetime_now func expiry args kwargs w).2 !! k
       = Some (t, v) → P k v).
Proof.
  intros Hrun Hinv.
  destruct (wrapper_paths datetime_now func expiry args kwargs w)
    as [(t0 & v0 & Hk & _ & ->) | (x & _ & ->)].
  - cbn [fst snd later cache]. split; [|done].
    intros v [= <-]. by eapply Hinv.
  - destruct (refresh_cache datetime_now func args kwargs (later w x))
      as [(e & -> & ->) | (t & v & x' & Hr & -> & ->)]; cbn [later cache].
    + split; [done|exact Hinv].
    + split.
      * intros v' [= <-]. by eapply Hrun.
      * intros k t' v' Hl.
        destruct (decide (k = make_key (__name__ func) args kwargs))
          as [->|Hne].
        -- rewrite lookup_insert_eq in Hl. injection Hl as <- <-.
           by eapply Hrun.
        -- rewrite lookup_insert_ne in Hl by done. by eapply Hinv.
Qed.

(** X6. Calls never evict: through any sequence of calls without a clear,
    every key of the store stays in the store, expired or not, and the only
    keys added are keys of the calls. *)
Theorem calls_never_evict rqs w :
  Forall (λ rq, is_call rq.2 = true) rqs →
  dom (cache w) ⊆ dom (cache (handle datetime_now rqs w).2)
  ∧ dom (cache (handle datetime_now rqs w).2)
    ⊆ dom (cache w) ∪ list_to_set (omap (λ rq, request_key rq.2) rqs).
Proof.
  intros Hcalls. revert w.
  induction Hcalls as [|[x [func expiry args kwargs|]] rqs Hc _ IH];
    intros w; [| |done].
  { split; [done | apply union_subseteq_l]. }
  rewrite handle_cons, step_call. cbn [fst snd omap request_key list_to_set].
  destruct (IH (wrapper datetime_now func expiry args kwargs (later w x)).2)
    as [IH1 IH2].
  destruct (wrapper_dom func expiry args kwargs (later w x)) as [H1 H2].
  cbn [later cache] in H1, H2. split; [by etrans|].
  etrans; [exact IH2|]. cbn. rewrite (assoc_L (∪)).
  by apply union_mono_r.
Qed.

(** X7. An entry outlives all traffic on other keys: after any sequence of
    calls under other keys the entry is what it was, and a call under its
    key within its window is still a hit. *)
Theorem entry_survives_other_traffic rqs w key t0 v :
  cache w !! key = Some (t0, v) →
  Forall (λ rq, avoids key rq.2) rqs →
  cache (handle datetime_now rqs w).2 !! key = Some (t0, v)
  ∧ ∀ func expiry args kwargs x,
      make_key (__name__ func) args kwargs = key →
      (datetime_now x).1 - t0 < expiry →
      wrapper datetime_now func expiry args kwargs
        (later (handle datetime_now rqs w).2 x)
      = (inr v, later (handle datetime_now rqs w).2 (datetime_now x).2).
Proof.
  intros Hk Hav.
  assert (Hkeep : cache (handle datetime_now rqs w).2 !! key = Some (t0, v)).
  { revert w Hk.
    induction Hav as [|[x [func expiry args kwargs|]] rqs Ha _ IH];
      intros w Hk; [done| |done].
    rewrite handle_cons, step_call. cbn [snd]. apply IH.
    rewrite wrapper_frame by (cbn in Ha; congruence). exact Hk. }
  split; [exact Hkeep|].
  intros func expiry args kwargs x <- Hage.
  destruct (datetime_now x) as [t x'] eqn:Ht. cbn [fst snd] in *.
  by apply (wrapper_hit _ _ _ _ _ (later _ x) t0 v t x').
Qed.

(** X8. The store only holds, and calls only return, what the functions
    returned: a property that every result of the called functions has,
    and every entry of the initial store has, holds of every response and
    of every entry after any sequence of calls and clears. *)
Theorem cached_values_are_results (P : string → V → Prop) rqs w :
  Forall (λ rq, results_satisfy P rq.2) rqs →
  (∀ k t v, cache w !! k = Some (t, v) → P k v) →
  Forall2 (λ rq rp, reply_satisfies P rq.2 rp) rqs (handle datetime_now rqs w).1
  ∧ (∀ k t v, cache (handle datetime_now rqs w).2 !! k = Some (t, v) → P k v).
Proof.
  intros Hres. revert w.
  induction Hres as [|[x [func expiry args kwargs|]] rqs Hr _ IH];
    intros w Hinv.
  - split; [constructor | exact Hinv].
  - rewrite handle_cons, step_call. cbn [fst snd].
    destruct (wrapper_sound P func expiry args kwargs (later w x) Hr Hinv)
      as [Hv Hinv'].
    destruct (IH _ Hinv') as [IH1 IH2]. split; [|exact IH2].
    constructor; [|exact IH1]. cbn [snd reply_satisfies].
    destruct (wrapper datetime_now func expiry args kwargs (later w x)).1
      as [e|v'] eqn:Hres1; [done|]. by apply Hv.
  - rewrite handle_cons, step_clear. cbn [fst snd].
    destruct (IH {| cache := ∅; outside := x; awaited := awaited w |})
      as [IH1 IH2].
    { intros k t v Hl. cbn in Hl. by rewrite lookup_empty in Hl. }
    split; [|exact IH2]. by constructor.
Qed.

(** X9. Every invocation belongs to a request: what a sequence of requests
    adds to the record of invocations is a subsequence of the calls
    requested, in their order, so at most one invocation per call and none
    for a clear. *)
Theorem invocations_follow_requests rqs w :
  ∃ l,
    awaited (handle datetime_now rqs w).2 = awaited w ++ l
    ∧ sublist l (rqs ≫= λ rq, request_call rq.2)
    ∧ (length l ≤ length (filter (λ rq, is_call rq.2 = true) rqs))%nat.
Proof.
  revert w. induction rqs as [|[x [func expiry args kwargs|]] rqs IH]; intros w.
  - exists []. cbn. by rewrite app_nil_r.
  - rewrite handle_cons, step_call. cbn [fst snd].
    destruct (IH (wrapper datetime_now func expiry args kwargs (later w x)).2)
      as (l & -> & Hsub & Hlen).
    destruct (wrapper_paths datetime_now func expiry args kwargs (later w x))
      as [(t0 & v0 & _ & _ & ->) | (x' & _ & ->)].
    + exists l. cbn [snd later awaited]. split; [done|].
      rewrite bind_cons, filter_cons_True by done. cbn [length].
      split; [|lia]. cbn [snd request_call]. by apply sublist_inserts_l.
    + destruct (refresh_awaits datetime_now func args kwargs
                  (later (later w x) x')) as [-> _].
      exists ((__name__ func, args, kwargs) :: l). cbn [later awaited].
      rewrite <- List.app_assoc. split; [done|].
      rewrite bind_cons, filter_cons_True by done. cbn [length snd request_call].
      split; [|lia]. by apply sublist_skip.
  - rewrite handle_cons, step_clear. cbn [fst snd].
    destruct (IH {| cache := ∅; outside := x; awaited := awaited w |})
      as (l & -> & Hsub & Hlen).
    exists l. cbn [awaited]. split; [done|].
    rewrite bind_cons, filter_cons_False by done. by cbn.
Qed.

End TrafficFacts.

(** ** The routes *)

Section BindFacts.

Implicit Types (params : list string) (args : Args) (kwargs : Kwargs).
Implicit Types (slots : list (string * option PyVal)).

Lemma fill_positional_too_many params args :
  (length params < length args)%nat → fill_positional params args = None.
Proof.
  revert args. induction params as [|p params IH]; intros [|a args] Hlen;
    cbn in Hlen; try lia; [done|].
  cbn [fill_positional]. rewrite IH by lia. done.
Qed.

Lemma fill_positional_names params args slots :
  fill_positional params args = Some slots → slots.*1 = params.
Proof.
  revert args slots.
  induction params as [|p params IH]; intros [|a args] slots H;
    cbn [fill_positional] in H; simplify_eq/=; try done.
  - f_equal. clear. induction params; [done|]. cbn. by f_equal.
  - destruct (fill_positional params args) as [slots'|] eqn:Hf;
      simplify_eq/=. f_equal. by eapply IH.
Qed.

(** A parameter that got a positional argument has its slot filled. *)
Lemma fill_positional_filled params args slots i k :
  NoDup params → params !! i = Some k → (i < length args)%nat →
  fill_positional params args = Some slots →
  ∃ a, slot_of k slots = Some (Some a).
Proof.
  revert args slots i.
  induction params as [|p params IH]; intros [|a args] slots i Hnd Hi Hlen H;
    cbn in Hlen; try lia; [done|].
  cbn [fill_positional] in H.
  destruct (fill_positional params args) as [slots'|] eqn:Hf; simplify_eq/=.
  apply NoDup_cons in Hnd as [Hp Hnd].
  destruct i as [|i]; simplify_eq/=.
  - rewrite String.eqb_refl. by exists a.
  - destruct (String.eqb_spec p k) as [->|Hne].
    + exfalso. apply Hp. by eapply list_elem_of_lookup_2.
    + eapply IH; [done|done| |done]. lia.
Qed.

Lemma fill_keyword_names k v slots slots' :
  fill_keyword k v slots = Some slots' → slots'.*1 = slots.*1 ∧ k ∈ slots.*1.
Proof.
  revert slots'. induction slots as [|[p s] slots IH]; intros slots' H;
    cbn [fill_keyword] in H; [done|].
  destruct (String.eqb_spec p k) as [->|Hne].
  - destruct s; simplify_eq/=. split; [done|]. apply elem_of_cons. by left.
  - destruct (fill_keyword k v slots) as [slots1|]; simplify_eq/=.
    destruct (IH _ eq_refl) as [-> Hin]. split; [done|].
    apply elem_of_cons. by right.
Qed.

Lemma fill_keywords_names kwargs slots slots' :
  fill_keywords kwargs slots = Some slots' →
  slots'.*1 = slots.*1 ∧ ∀ k v, (k, v) ∈ kwargs → k ∈ slots.*1.
Proof.
  revert slots. induction kwargs as [|[k0 v0] kwargs IH]; intros slots H;
    cbn [fill_keywords] in H.
  - simplify_eq. split; [done|]. by intros k v ?%elem_of_nil.
  - destruct (fill_keyword k0 v0 slots) as [slots1|] eqn:Hf; [|done].
    cbn in H. apply fill_keyword_names in Hf as [Hn Hin].
    apply IH in H as [-> Hall]. split; [done|].
    intros k v [[= -> ->] | Hkv]%elem_of_cons; [done|].
    rewrite <- Hn. by eapply Hall.
Qed.

Lemma fill_keyword_filled k v slots a :
  slot_of k slots = Some (Some a) → fill_keyword k v slots = None.
Proof.
  induction slots as [|[p s] slots IH]; cbn [slot_of fill_keyword]; [done|].
  destruct (String.eqb p k).
  - by intros [= ->].
  - intros H. by rewrite IH.
Qed.

Lemma fill_keyword_keeps k0 v0 k slots slots' a :
  fill_keyword k0 v0 slots = Some slots' →
  slot_of k slots = Some (Some a) → slot_of k slots' = Some (Some a).
Proof.
  revert slots'. induction slots as [|[p s] slots IH]; intros slots';
    cbn [slot_of fill_keyword]; [done|].
  destruct (String.eqb_spec p k0) as [->|Hne0].
  - destruct s; [done|]. intros [= <-]. cbn [slot_of].
    by destruct (String.eqb k0 k).
  - destruct (fill_keyword k0 v0 slots) as [slots1|]; [|done].
    intros [= <-]. cbn [slot_of]. destruct (String.eqb p k); [done|].
    by apply IH.
Qed.

Lemma fill_keywords_filled kwargs slots k v a :
  slot_of k slots = Some (Some a) → (k, v) ∈ kwargs →
  fill_keywords kwargs slots = None.
Proof.
  revert slots. induction kwargs as [|[k0 v0] kwargs IH]; intros slots Hs Hin.
  - by apply elem_of_nil in Hin.
  - cbn [fill_keywords].
    apply elem_of_cons in Hin as [[= <- <-] | Hin].
    + by rewrite (fill_keyword_filled _ _ _ a).
    + destruct (fill_keyword k0 v0 slots) as [slots1|] eqn:Hf; [|done].
      cbn. apply IH; [|done]. by eapply fill_keyword_keeps.
Qed.

(** The three ways in which a call does not bind. *)
Lemma bind_call_fails params args kwargs :
  NoDup params →
  (length params < length args)%nat
  ∨ (∃ k v, (k, v) ∈ kwargs ∧ k ∉ params)
  ∨ (∃ i k v,
       params !! i = Some k ∧ (i < length args)%nat ∧ (k, v) ∈ kwargs) →
  bind_call params args kwargs = None.
Proof.
  intros Hnd H. unfold bind_call.
  destruct (fill_positional params args) as [slots|] eqn:Hf; [|done].
  cbn. destruct H as [Hlen | [(k & v & Hin & Hk) | (i & k & v & Hi & Hlen & Hin)]].
  - by rewrite fill_positional_too_many in Hf.
  - destruct (fill_keywords kwargs slots) as [slots'|] eqn:Hk'; [|done].
    exfalso. apply fill_keywords_names in Hk' as [_ Hall].
    apply Hk. rewrite <- (fill_positional_names _ _ _ Hf). by eapply Hall.
  - destruct (fill_positional_filled _ _ _ _ _ Hnd Hi Hlen Hf) as [a Ha].
    by rewrite (fill_keywords_filled _ _ _ _ _ Ha Hin).
Qed.

End BindFacts.

Section RouteFacts.

Context {V Exc X : Type} (datetime_now : X → Z * X).
Context (TypeError : Exc) (nfl_service : NflService V Exc X).

Implicit Types (w : World V X) (x : X) (args : Args) (kwargs : Kwargs).

(** X10. No two routes of the module share a cache entry: when calls of two
    of the five decorated functions derive the same key, they are calls of
    the same function with the same positional and named arguments. *)
Theorem routes_never_share_entries r1 r2 args args' kwargs kwargs' :
  r1 ∈ route_table TypeError nfl_service →
  r2 ∈ route_table TypeError nfl_service →
  make_key (__name__ r1.1.1) args kwargs
  = make_key (__name__ r2.1.1) args' kwargs' →
  r1 = r2 ∧ args = args' ∧ kwargs = kwargs'.
Proof.
  unfold route_table. intros H1 H2 Hk.
  repeat (apply elem_of_cons in H1 as [-> | H1]);
    [..|by apply elem_of_nil in H1];
    (repeat (apply elem_of_cons in H2 as [-> | H2]);
       [..|by apply elem_of_nil in H2]);
    apply make_key_inj in Hk as (Hn & -> & ->); try reflexivity;
    cbn in Hn; done.
Qed.

(** X11. However a caller passes year and season type to [get_schedule]
    (both by position, both by name in either order, or one each way), the
    provider is asked for the same schedule; the four ways have four
    different cache keys. *)
Theorem schedule_call_forms_fetch_the_same (y s : PyVal) x :
  let fetch := service_get_schedule nfl_service (Given y) (Given s) x in
  let func := get_schedule_func TypeError nfl_service in
  run func [y; s] [] x = fetch
  ∧ run func [] [("year", y); ("season_type", s)] x = fetch
  ∧ run func [] [("season_type", s); ("year", y)] x = fetch
  ∧ run func [y] [("season_type", s)] x = fetch
  ∧ NoDup [make_key (__name__ func) [y; s] [];
           make_key (__name__ func) [] [("year", y); ("season_type", s)];
           make_key (__name__ func) [] [("season_type", s); ("year", y)];
           make_key (__name__ func) [y] [("season_type", s)]].
Proof.
  intros fetch func. repeat (split; [reflexivity|]).
  repeat (apply NoDup_cons; split);
    [..|apply NoDup_nil_2];
    rewrite ?elem_of_cons, elem_of_nil;
    intros H; repeat destruct H as [H|H]; try done;
    apply make_key_args_inj in H as [? ?]; done.
Qed.

(** X12. A call that does not bind never reaches the provider: with more
    positional arguments than the route has parameters, with a named
    argument that is no parameter of the route, or with a parameter given
    both by position and by name, each of the five route functions raises
    [TypeError] and leaves the outside world as it is. *)
Theorem routes_reject_bad_calls r args kwargs x :
  r ∈ route_table TypeError nfl_service →
  (length r.1.2 < length args)%nat
  ∨ (∃ k v, (k, v) ∈ kwargs ∧ k ∉ r.1.2)
  ∨ (∃ i k v,
       r.1.2 !! i = Some k ∧ (i < length args)%nat ∧ (k, v) ∈ kwargs) →
  run r.1.1 args kwargs x = (inl TypeError, x).
Proof.
  unfold route_table. intros Hr Hbad.
  repeat (apply elem_of_cons in Hr as [-> | Hr]);
    [..|by apply elem_of_nil in Hr];
    cbn [fst snd] in Hbad; cbn [fst snd run get_teams_func get_schedule_func
      get_team_profile_func get_player_profile_func get_game_boxscore_func];
    rewrite bind_call_fails; try done;
    match goal with
    | |- NoDup ?l => exact (bool_decide_unpack (NoDup l) I)
    end.
Qed.

(** A function with one parameter and a default, on every call. *)
Lemma bind_call_one_parameter (p : string) args kwargs :
  bind_call [p] args kwargs
  = match args, kwargs with
    | [], [] => Some [PathDefault]
    | [a], [] => Some [Given a]
    | [], [(k, v)] => if String.eqb p k then Some [Given v] else None
    | _, _ => None
    end.
Proof.
  unfold bind_call.
  destruct args as [|a [|b args]];
    cbn [fill_positional fmap option_fmap option_map map];
    [| |by destruct args].
  - destruct kwargs as [|[k v] [|[k' v'] kwargs]]; cbn; [done| |].
    + by destruct (String.eqb p k).
    + destruct (String.eqb p k); cbn; [|done].
      by destruct (String.eqb p k').
  - destruct kwargs as [|[k v] kwargs]; cbn; [done|].
    by destruct (String.eqb p k).
Qed.

(** X13. The route functions with at most one parameter, on every call.
    Called with nothing, a one-parameter route forwards the [Path(...)]
    default of its signature to the provider and does not fail; with the
    parameter given once, by position or by name, it forwards the value;
    every other call raises [TypeError] and leaves the outside world as it
    is.  [get_teams] reaches the provider only when called with nothing. *)
Theorem route_functions_case_by_case args kwargs x :
  run (get_team_profile_func TypeError nfl_service) args kwargs x
  = one_parameter_call TypeError "team_id"
      (service_get_team_profile nfl_service) args kwargs x
  ∧ run (get_player_profile_func TypeError nfl_service) args kwargs x
    = one_parameter_call TypeError "player_id"
        (service_get_player_profile nfl_service) args kwargs x
  ∧ run (get_game_boxscore_func TypeError nfl_service) args kwargs x
    = one_parameter_call TypeError "game_id"
        (service_get_game_boxscore nfl_service) args kwargs x
  ∧ run (get_teams_func TypeError nfl_service) args kwargs x
    = match args, kwargs with
      | [], [] => service_get_teams nfl_service x
      | _, _ => (inl TypeError, x)
      end.
Proof.
  cbn [run get_team_profile_func get_player_profile_func
       get_game_boxscore_func get_teams_func].
  rewrite !bind_call_one_parameter. unfold one_parameter_call.
  repeat split.
  - destruct args as [|a [|b args]], kwargs as [|[k v] [|kv kwargs]];
      try done; by destruct (String.eqb "team_id" k).
  - destruct args as [|a [|b args]], kwargs as [|[k v] [|kv kwargs]];
      try done; by destruct (String.eqb "player_id" k).
  - destruct args as [|a [|b args]], kwargs as [|[k v] [|kv kwargs]];
      try done; by destruct (String.eqb "game_id" k).
  - by destruct args as [|a args], kwargs as [|[k v] kwargs].
Qed.

(** X14. A schedule is fetched once in six hours: a request for a year and
    a season type that finds no entry returns the provider's schedule and
    stores it, and every request for the same year and season type whose
    clock reading is less than six hours after the entry's timestamp gets
    the stored schedule without a word to the provider. *)
Theorem schedule_is_fetched_once_in_six_hours (y s : PyVal) w r x1 t0 x2 :
  let kwargs := [("year", y); ("season_type", s)] in
  let key := make_key "get_schedule" [] kwargs in
  let w1 := {| cache := <[key := (t0, r)]> (cache w); outside := x2;
               awaited := awaited w ++ [("get_schedule", [], kwargs)] |} in
  cache w !! key = None →
  service_get_schedule nfl_service (Given y) (Given s) (outside w)
  = (inr r, x1) →
  datetime_now x1 = (t0, x2) →
  get_schedule datetime_now TypeError nfl_service [] kwargs w = (inr r, w1)
  ∧ ∀ x,
      (datetime_now x).1 - t0 < 21600000000 →
      get_schedule datetime_now TypeError nfl_service [] kwargs (later w1 x)
      = (inr r, later w1 (datetime_now x).2).
Proof.
  intros kwargs key w1 Hk Hrun Ht0.
  change (get_schedule datetime_now TypeError nfl_service [] kwargs)
    with (wrapper datetime_now (get_schedule_func TypeError nfl_service)
            21600000000 [] kwargs).
  split.
  - rewrite wrapper_absent, refresh_eq by exact Hk.
    change (run (get_schedule_func TypeError nfl_service) [] kwargs (outside w))
      with (service_get_schedule nfl_service (Given y) (Given s) (outside w)).
    by rewrite Hrun, Ht0.
  - intros x Hage. destruct (datetime_now x) as [t x'] eqn:Ht.
    cbn [fst snd] in *.
    apply (wrapper_hit _ _ _ _ _ (later w1 x) t0 r t x'); [|done|done].
    apply lookup_insert_eq.
Qed.

End RouteFacts.

(** ** Failures, clocks and growth *)

Section GrowthFacts.

Context {V Exc X : Type} (datetime_now : X → Z * X).

Implicit Types (func : Func V Exc X) (w : World V X) (x : X) (v : V).
Implicit Types (args : Args) (kwargs : Kwargs) (expiry t : Z).
Implicit Types (rqs : list (X * Request V Exc X)).

(** One call adds at most one entry, and only when it awaits the
    function. *)
Lemma wrapper_size func expiry args kwargs w :
  (size (cache (wrapper datetime_now func expiry args kwargs w).2)
   + length (awaited w)
   ≤ size (cache w)
     + length (awaited (wrapper datetime_now func expiry args kwargs w).2))%nat.
Proof.
  destruct (wrapper_paths datetime_now func expiry args kwargs w)
    as [(t0 & v0 & _ & _ & ->) | (x & _ & ->)]; [done|].
  destruct (refresh_awaits datetime_now func args kwargs (later w x))
    as [-> _].
  rewrite length_app. cbn [later awaited length].
  destruct (refresh_cache datetime_now func args kwargs (later w x))
    as [(e & _ & ->) | (t & v & x' & _ & _ & ->)]; cbn [later cache]; [lia|].
  rewrite map_size_insert. destruct (cache w !! _); cbn; lia.
Qed.

(** X15. A stale entry outlives a failed refresh and comes back when the
    clock steps back: after a call that found the entry expired and raised,
    a call whose clock reading puts the age of the entry below the window
    again returns the old response without awaiting the function. *)
Theorem stale_entry_revives_when_clock_steps_back func expiry args kwargs
    w e w1 t0 v0 :
  wrapper datetime_now func expiry args kwargs w = (inl e, w1) →
  cache w !! make_key (__name__ func) args kwargs = Some (t0, v0) →
  expiry ≤ (datetime_now (outside w)).1 - t0
  ∧ ∀ x,
      (datetime_now x).1 - t0 < expiry →
      wrapper datetime_now func expiry args kwargs (later w1 x)
      = (inr v0, later w1 (datetime_now x).2).
Proof.
  intros H Hk. rewrite (wrapper_found _ _ _ _ _ _ _ _ Hk) in H.
  destruct (datetime_now (outside w)) as [t1 x1] eqn:Ht1. cbn [fst].
  destruct (t1 - t0 <? expiry) eqn:Hage; [done|]. apply Z.ltb_ge in Hage.
  split; [exact Hage|].
  apply refresh_raises in H as (x2 & _ & ->).
  intros x Hback. destruct (datetime_now x) as [t x'] eqn:Ht.
  cbn [fst snd] in *.
  match goal with
  | |- wrapper _ _ _ _ _ ?w2 = _ =>
      by apply (wrapper_hit datetime_now func expiry args kwargs w2 t0 v0 t x')
  end.
Qed.

(** X16. The store grows no faster than the provider is asked: after any
    sequence of calls and clears, the number of entries exceeds the number
    before by at most the number of invocations added to the record. *)
Theorem store_grows_with_invocations rqs w :
  (size (cache (handle datetime_now rqs w).2) + length (awaited w)
   ≤ size (cache w) + length (awaited (handle datetime_now rqs w).2))%nat.
Proof.
  revert w. induction rqs as [|[x [func expiry args kwargs|]] rqs IH]; intros w.
  - done.
  - rewrite handle_cons, step_call. cbn [fst snd].
    specialize (IH (wrapper datetime_now func expiry args kwargs (later w x)).2).
    pose proof (wrapper_size func expiry args kwargs (later w x)) as Hs.
    cbn [later cache awaited] in Hs. lia.
  - rewrite handle_cons, step_clear. cbn [fst snd].
    specialize (IH {| cache := ∅; outside := x; awaited := awaited w |}).
    cbn [cache awaited] in IH. rewrite map_size_empty in IH. lia.
Qed.

End GrowthFacts.

(** ** More facts on the concrete world *)

Module MoreWitness.

Import Scenario RouteScenario.

(** The second function of the name is served the entry of the first. *)
Lemma valid_entry_serves_any_function_of_the_name_witness :
  let w := holding 0 team_a 1000 [inr team_b] in
  call get_team_profile_v2 h12 T1 [] w = call get_team_profile h12 T1 [] w
  ∧ awaited (call get_team_profile_v2 h12 T1 [] w).2 = [].
Proof.
  intros w.
  apply (valid_entry_serves_any_function_of_the_name clock
           get_team_profile get_team_profile_v2 h12 T1 [] w); reflexivity.
Defined.

(** A window of zero, five microseconds after the entry was written. *)
Lemma nonpositive_window_never_hits_witness :
  let w := holding 0 team_a 5 [inr team_b] in
  awaited (with_cache clock (Some 0) get_team_profile T1 [] w).2
  = [("get_team_profile", T1, [])].
Proof.
  intros w.
  apply (nonpositive_window_never_hits clock get_team_profile 0 T1 [] w).
  - lia.
  - intros t0 v0 H. vm_compute in H. injection H as <- _. vm_compute.
    discriminate.
Defined.

(** One microsecond before the default window ends. *)
Lemma default_window_is_fifteen_minutes_witness :
  let w := holding 0 team_a 899999999 [inr team_b] in
  with_cache clock None get_team_profile T1 [] w
  = (inr team_a, later w (899999999, [inr team_b])).
Proof.
  intros w.
  destruct (default_window_is_fifteen_minutes clock get_team_profile T1 [] w
              0 team_a 899999999 (899999999, [inr team_b])) as [Hhit _];
    [reflexivity | reflexivity |].
  apply Hhit. lia.
Defined.

(** Three requests, the last one just inside the window. *)
Lemma one_fetch_per_window_witness :
  let w := start 0 [inr team_a; inr team_b] in
  let xs := [(3000000, [inr team_b]); (h12, [inr team_b])] in
  (serve clock get_team_profile h12 T1 []
     ((0, [inr team_a; inr team_b]) :: xs) w).1
  = [inr team_a; inr team_a; inr team_a]
  ∧ awaited (serve clock get_team_profile h12 T1 []
               ((0, [inr team_a; inr team_b]) :: xs) w).2
    = [("get_team_profile", T1, [])].
Proof.
  intros w xs.
  destruct (one_fetch_per_window clock get_team_profile h12 T1 [] w
              (0, [inr team_a; inr team_b]) xs team_a
              (2000000, [inr team_b]) 2000000 (2000000, [inr team_b]))
    as (Hr & Ha & _); [reflexivity | reflexivity | reflexivity | |].
  - repeat constructor.
  - split; [exact Hr | exact Ha].
Defined.

(** Two calls under new keys keep the old key. *)
Lemma calls_never_evict_witness :
  let w := holding 0 team_a 0 [] in
  let rqs := [((h12, [inr team_b]), CallReq get_player_profile h12 T1 []);
              ((h12 + 1, []), CallReq get_team_profile_v2 h12 [] [])] in
  dom (cache w) ⊆ dom (cache (handle clock rqs w).2).
Proof.
  intros w rqs.
  destruct (calls_never_evict clock rqs w) as [Hkeep _]; [|exact Hkeep].
  repeat constructor.
Defined.

(** The team's entry after a player request and a request for another
    team. *)
Lemma entry_survives_other_traffic_witness :
  let w := holding 0 team_a 0 [] in
  let rqs := [((1000, [inr team_b]), CallReq get_player_profile h12 T1 []);
              ((5000, []), CallReq get_team_profile_v2 h12 [PStr "T2"] [])] in
  cache (handle clock rqs w).2 !! make_key "get_team_profile" T1 []
  = Some (0, team_a).
Proof.
  intros w rqs.
  destruct (entry_survives_other_traffic clock rqs w
              (make_key "get_team_profile" T1 []) 0 team_a) as [Hkeep _];
    [reflexivity| |exact Hkeep].
  repeat constructor; vm_compute; discriminate.
Defined.

(** A function with one response, called, cleared and called again. *)
Lemma cached_values_are_results_witness :
  let P := λ (_ : string) (v : string), v = "{'name': 'Team A', 'version': 2}" in
  let rqs := [((0, []), CallReq get_team_profile_v2 h12 T1 []);
              ((1000, []), ClearReq);
              ((2000, []), CallReq get_team_profile_v2 h12 T1 [])] in
  Forall2 (λ rq rp, reply_satisfies P rq.2 rp) rqs
    (handle clock rqs (start 0 [])).1
  ∧ (∀ k t v,
       cache (handle clock rqs (start 0 [])).2 !! k = Some (t, v) → P k v).
Proof.
  intros P rqs. apply (cached_values_are_results clock P rqs (start 0 [])).
  - repeat constructor; intros x v x' H; cbn in H; by injection H as <- _.
  - intros k t v H. vm_compute in H. discriminate.
Defined.

(** The schedule route against itself. *)
Lemma routes_never_share_entries_witness :
  let r := (get_schedule_func TypeError nfl, ["year"; "season_type"],
            timedelta_hours 6) in
  r = r ∧ ([] : Args) = [] ∧ REG_2023 = REG_2023.
Proof.
  intros r.
  apply (routes_never_share_entries TypeError nfl r r [] [] REG_2023 REG_2023).
  - apply elem_of_cons. right. apply elem_of_cons. by left.
  - apply elem_of_cons. right. apply elem_of_cons. by left.
  - reflexivity.
Defined.

(** The team id given twice. *)
Lemma routes_reject_bad_calls_witness :
  run (get_team_profile_func TypeError nfl) T1 [("team_id", PStr "T1")]
    (0, [inr team_a])
  = (inl TypeError, (0, [inr team_a])).
Proof.
  apply (routes_reject_bad_calls TypeError nfl
           (get_team_profile_func TypeError nfl, ["team_id"], timedelta_hours 12)).
  - do 2 (apply elem_of_cons; right). apply elem_of_cons. by left.
  - right. right. exists 0%nat, "team_id", (PStr "T1").
    split; [reflexivity|]. split; [cbn; lia|]. apply elem_of_cons. by left.
Defined.

(** The regular season of 2023, asked for at 0 s and again within six
    hours. *)
Lemma schedule_is_fetched_once_in_six_hours_witness :
  let w := start 0 [inr schedule] in
  get_schedule clock TypeError nfl [] REG_2023 w
  = (inr schedule,
     {| cache := <[make_key "get_schedule" [] REG_2023 := (2000000, schedule)]> ∅;
        outside := (2000000, []);
        awaited := [("get_schedule", [], REG_2023)] |}).
Proof.
  intros w.
  destruct (schedule_is_fetched_once_in_six_hours clock TypeError nfl
              (PInt 2023) (PStr "REG") w schedule (2000000, []) 2000000
              (2000000, [])) as [Hfirst _];
    [reflexivity | reflexivity | reflexivity | exact Hfirst].
Defined.

(** The provider is down when the entry has expired; an hour earlier on
    the clock the entry is served again. *)
Lemma stale_entry_revives_when_clock_steps_back_witness :
  let w := holding 0 team_a h12 [] in
  let w1 := (call get_team_profile h12 T1 [] w).2 in
  call get_team_profile h12 T1 [] w = (inl "503 Service Unavailable", w1)
  ∧ call get_team_profile h12 T1 [] (later w1 (h12 - 3600000000, []))
    = (inr team_a, later w1 (h12 - 3600000000, [])).
Proof.
  intros w w1. split; [reflexivity|].
  destruct (stale_entry_revives_when_clock_steps_back clock get_team_profile
              h12 T1 [] w "503 Service Unavailable" w1 0 team_a)
    as [_ Hback]; [reflexivity | reflexivity |].
  apply (Hback (h12 - 3600000000, [])). vm_compute. reflexivity.
Defined.

End MoreWitness.
